(** * Jo's Chatbot AI: the NLP configuration module and the Redis retry policy

    A shallow embedding of [src/config/database.js] (the text utilities
    [preprocessText], [extractentities], [analyzeSentiment], the table
    [entityTypes], the table [intentCategories] and [InitializeNlpManager])
    and of [retryStrategy] from the Redis configuration.

    JavaScript strings are sequences of UTF-16 code units; a code unit is
    modelled as an [N] and a string as a [list N].  The regular expressions
    of the module are run by a backtracking matcher written after the
    ECMAScript pattern semantics (continuation-passing matchers), and the
    string methods [match], [replace], [indexOf], [trim] are written on top
    of it. *)

From Stdlib Require Import ZArith NArith QArith Lia Ascii String.
From stdpp Require Import base option list strings pretty gmap.

Local Open Scope nat_scope.

(** ** JavaScript strings *)

Module JsString.

Abbreviation code_unit := N (only parsing).
Abbreviation jsstring := (list N) (only parsing).

(** A string literal of the source, as its code units (every literal of
    the module is ASCII). *)
Definition js (s : string) : jsstring :=
  N_of_ascii <$> list_ascii_of_string s.

Definition ch (a : ascii) : N := N_of_ascii a.

Definition in_range (lo hi c : N) : bool := ((lo <=? c) && (c <=? hi))%N.

(** [\d] *)
Definition is_digit (c : N) : bool := in_range 0x30 0x39 c.

(** [\w]: the basic word characters [A-Za-z0-9_]. *)
Definition is_word (c : N) : bool :=
  in_range 0x61 0x7a c || in_range 0x41 0x5a c || in_range 0x30 0x39 c
  || (c =? 0x5f)%N.

(** [\s], and the characters removed by [trim]: WhiteSpace and
    LineTerminator of ECMAScript. *)
Definition is_space (c : N) : bool :=
  in_range 0x09 0x0d c || (c =? 0x20)%N || (c =? 0xa0)%N || (c =? 0x1680)%N
  || in_range 0x2000 0x200a c || (c =? 0x2028)%N || (c =? 0x2029)%N
  || (c =? 0x202f)%N || (c =? 0x205f)%N || (c =? 0x3000)%N
  || (c =? 0xfeff)%N.

(** [String.prototype.substring] for [start <= end]. *)
Definition substring (s : jsstring) (i e : nat) : jsstring :=
  take (e - i) (drop i s).

Fixpoint starts_with (s p : jsstring) : bool :=
  match p, s with
  | [], _ => true
  | _ :: _, [] => false
  | a :: p', b :: s' => (a =? b)%N && starts_with s' p'
  end.

(** [text.indexOf(s)] searching from [i] on: the least position at which
    [s] occurs, [-1] when there is none. *)
Fixpoint indexOf_from (text s : jsstring) (i : nat) : Z :=
  if starts_with text s then Z.of_nat i
  else match text with
       | [] => (-1)%Z
       | _ :: rest => indexOf_from rest s (S i)
       end.

Definition indexOf (text s : jsstring) : Z := indexOf_from text s 0.

Fixpoint trimStart (s : jsstring) : jsstring :=
  match s with
  | [] => []
  | c :: rest => if is_space c then trimStart rest else s
  end.

Definition trimEnd (s : jsstring) : jsstring := rev (trimStart (rev s)).

Definition trim (s : jsstring) : jsstring := trimEnd (trimStart s).

(** [toLowerCase] on one code unit: the Unicode lower-case mapping of the
    Basic Latin and Latin-1 blocks, which is what
    [String.prototype.toLowerCase] does to a string of code units up to
    U+00FF.  Code units above U+00FF are kept as they are here, while the
    runtime maps many of them (U+212A to "k", U+0130 to two code units).
    The results that do not depend on the mapping are therefore stated
    for an arbitrary one (see [preprocessText_with]). *)
Definition lower_unit (c : N) : N :=
  if in_range 0x41 0x5a c then (c + 0x20)%N
  else if in_range 0xc0 0xde c && negb (c =? 0xd7)%N then (c + 0x20)%N
  else c.

Definition toLowerCase (s : jsstring) : jsstring := lower_unit <$> s.

End JsString.

Export JsString.

(** ** Regular expressions *)

Module RegExpEngine.

(** Members of a character class. *)
Inductive class_atom : Type :=
| CChar (c : N)
| CRange (lo hi : N)
| CDigit
| CSpace
| CWord.

(** The pattern grammar used by the module: atoms, [\b], sequence,
    alternation and quantifiers over non-capturing groups. *)
Inductive pattern : Type :=
| REmpty
| RChar (c : N)
| RClass (invert : bool) (A : list class_atom)
| RWordBoundary
| RSeq (r1 r2 : pattern)
| RAlt (r1 r2 : pattern)
| RQuant (r : pattern) (min : nat) (max : option nat) (greedy : bool).

Definition atom_has (a : class_atom) (c : N) : bool :=
  match a with
  | CChar x => (x =? c)%N
  | CRange lo hi => in_range lo hi c
  | CDigit => is_digit c
  | CSpace => is_space c
  | CWord => is_word c
  end.

(** [Canonicalize] without the [u] flag: upper-casing, never from a
    non-ASCII code unit to an ASCII one.  Every class member written in
    the patterns of this module is ASCII or white space, so only the
    ASCII letters have a second code unit with the same canonical form. *)
Definition Canonicalize (ignoreCase : bool) (c : N) : N :=
  if ignoreCase && in_range 0x61 0x7a c then (c - 0x20)%N else c.

(** The code units whose canonical form is that of [c]. *)
Definition canonical_class (ignoreCase : bool) (c : N) : list N :=
  if ignoreCase && in_range 0x61 0x7a c then [c; (c - 0x20)%N]
  else if ignoreCase && in_range 0x41 0x5a c then [c; (c + 0x20)%N]
  else [c].

(** Whether some member of the class has the canonical form of [c]. *)
Definition class_has (ignoreCase : bool) (A : list class_atom) (c : N) : bool :=
  existsb (fun a => existsb (atom_has a) (canonical_class ignoreCase c)) A.

Section Matcher.
Variable Input : jsstring.
Variable ignoreCase : bool.

Definition InputLength : nat := length Input.

(** A match state is the end index reached so far; a continuation
    finishes the match from there or fails. *)
Definition Continuation : Type := nat -> option nat.
Definition Matcher : Type := nat -> Continuation -> option nat.

Definition CharacterSetMatcher (invert : bool) (A : list class_atom) : Matcher :=
  fun x c =>
    match Input !! x with
    | None => None
    | Some chr =>
        if xorb invert (class_has ignoreCase A chr) then c (S x) else None
    end.

(** [IsWordChar(e - 1)] and [IsWordChar(e)]. *)
Definition IsWordChar_before (e : nat) : bool :=
  match e with
  | 0 => false
  | S p => match Input !! p with Some c => is_word c | None => false end
  end.

Definition IsWordChar_at (e : nat) : bool :=
  match Input !! e with Some c => is_word c | None => false end.

Definition WordBoundary : Matcher :=
  fun x c =>
    if xorb (IsWordChar_before x) (IsWordChar_at x) then c x else None.

(** [RepeatMatcher].  Each unfolding either uses up one of the [min]
    mandatory iterations or moves the end index forward (an iteration
    that matches the empty string is rejected once [min] is zero), so
    [min + (InputLength - x) + 1] unfoldings are enough: see
    [RepeatMatcher_fuel]. *)
Fixpoint RepeatMatcher (fuel : nat) (m : Matcher) (min : nat)
    (max : option nat) (greedy : bool) (x : nat) (c : Continuation)
    : option nat :=
  match fuel with
  | 0 => None
  | S fuel' =>
      match max with
      | Some 0 => c x
      | _ =>
          let d : Continuation := fun y =>
            if (min =? 0) && (y =? x) then None
            else RepeatMatcher fuel' m (pred min) (pred <$> max) greedy y c in
          if negb (min =? 0) then m x d
          else if greedy then
            match m x d with
            | Some z => Some z
            | None => c x
            end
          else
            match c x with
            | Some z => Some z
            | None => m x d
            end
      end
  end.

Fixpoint compile (r : pattern) : Matcher :=
  match r with
  | REmpty => fun x c => c x
  | RChar a => CharacterSetMatcher false [CChar a]
  | RClass invert A => CharacterSetMatcher invert A
  | RWordBoundary => WordBoundary
  | RSeq r1 r2 => fun x c => compile r1 x (fun y => compile r2 y c)
  | RAlt r1 r2 => fun x c =>
      match compile r1 x c with
      | Some z => Some z
      | None => compile r2 x c
      end
  | RQuant r' min max greedy => fun x c =>
      RepeatMatcher (S (min + InputLength)) (compile r') min max greedy x c
  end.

(** The loop of [RegExpBuiltinExec]: try the pattern at [lastIndex],
    [lastIndex + 1], ... up to [InputLength]; [n] counts the start
    positions left. *)
Fixpoint scan (m : Matcher) (n : nat) (lastIndex : nat) : option (nat * nat) :=
  match n with
  | 0 => None
  | S n' =>
      match m lastIndex Some with
      | Some e => Some (lastIndex, e)
      | None => scan m n' (S lastIndex)
      end
  end.

Definition exec_from (r : pattern) (lastIndex : nat) : option (nat * nat) :=
  scan (compile r) (S InputLength - lastIndex) lastIndex.

End Matcher.

End RegExpEngine.

Export RegExpEngine.

(** ** RegExp objects and the string methods that take them *)

Module JsRegExp.

(** A RegExp object: its pattern, its flags, and the mutable [lastIndex]
    that a global pattern carries from one [exec] to the next. *)
Record RegExp : Type := mkRegExp {
  source : pattern;
  global : bool;
  ignoreCase : bool;
  lastIndex : nat
}.

Definition set_lastIndex (R : RegExp) (i : nat) : RegExp :=
  {| source := source R; global := global R; ignoreCase := ignoreCase R;
     lastIndex := i |}.

(** [RegExpBuiltinExec]: the span [(index, end)] of the match found, or
    [None] for [null], and the object with its [lastIndex] written. *)
Definition RegExpBuiltinExec (R : RegExp) (S : jsstring)
    : option (nat * nat) * RegExp :=
  let i := if global R then lastIndex R else 0 in
  match exec_from S (ignoreCase R) (source R) i with
  | None => (None, if global R then set_lastIndex R 0 else R)
  | Some (p, e) => (Some (p, e), if global R then set_lastIndex R e else R)
  end.

(** The loop shared by [RegExp.prototype[@@match]] and [[@@replace]] for a
    global pattern: collect the matches until [exec] returns [null],
    stepping [lastIndex] over an empty match.  [lastIndex] grows at every
    turn, so [length S + 2] turns are enough: see [global_loop_fuel]. *)
Fixpoint global_loop (fuel : nat) (R : RegExp) (S : jsstring)
    : list (nat * nat) * RegExp :=
  match fuel with
  | 0 => ([], R)
  | Datatypes.S fuel' =>
      match RegExpBuiltinExec R S with
      | (None, R') => ([], R')
      | (Some (p, e), R') =>
          let R'' := if e =? p then set_lastIndex R' (Datatypes.S (lastIndex R'))
                     else R' in
          let '(rest, Rend) := global_loop fuel' R'' S in
          ((p, e) :: rest, Rend)
      end
  end.

(** The spans of the results that [@@match] and [@@replace] work from. *)
Definition match_results (R : RegExp) (S : jsstring)
    : list (nat * nat) * RegExp :=
  if global R then
    global_loop (Datatypes.S (Datatypes.S (length S))) (set_lastIndex R 0) S
  else
    match RegExpBuiltinExec R S with
    | (None, R') => ([], R')
    | (Some span, R') => ([span], R')
    end.

(** [S.match(R)]: [None] is [null]; for a global pattern the array holds
    the matched substrings and nothing else. *)
Definition String_match (S : jsstring) (R : RegExp)
    : option (list jsstring) * RegExp :=
  let '(spans, R') := match_results R S in
  match spans with
  | [] => (None, R')
  | _ => (Some ((fun span => substring S span.1 span.2) <$> spans), R')
  end.

(** The assembly of [@@replace]: the text between the matches, with the
    replacement in place of each match. *)
Fixpoint splice (S replacement : jsstring) (spans : list (nat * nat))
    (nextSourcePosition : nat) : jsstring :=
  match spans with
  | [] => drop nextSourcePosition S
  | (p, e) :: rest =>
      if nextSourcePosition <=? p then
        substring S nextSourcePosition p ++ replacement ++ splice S replacement rest e
      else splice S replacement rest nextSourcePosition
  end.

(** [S.replace(R, replacement)] for a replacement string without [$]. *)
Definition String_replace (S : jsstring) (R : RegExp) (replacement : jsstring)
    : jsstring * RegExp :=
  let '(spans, R') := match_results R S in
  (splice S replacement spans 0, R').

(** A regular expression literal evaluates to a new object. *)
Definition literal (r : pattern) (g i : bool) : RegExp :=
  {| source := r; global := g; ignoreCase := i; lastIndex := 0 |}.

End JsRegExp.

Export JsRegExp.

(** ** Pattern notation *)

Module Pattern.

Definition seqs (rs : list pattern) : pattern := foldr RSeq REmpty rs.
Definition lit (a : ascii) : pattern := RChar (ch a).
Definition cls (A : list class_atom) : pattern := RClass false A.
Definition ncls (A : list class_atom) : pattern := RClass true A.
Definition range (a b : ascii) : class_atom := CRange (ch a) (ch b).
Definition one (a : ascii) : class_atom := CChar (ch a).
Definition digit : pattern := cls [CDigit].
Definition space : pattern := cls [CSpace].
Definition plus (r : pattern) : pattern := RQuant r 1 None true.
Definition opt (r : pattern) : pattern := RQuant r 0 (Some 1) true.
Definition times (r : pattern) (n : nat) : pattern := RQuant r n (Some n) true.
Definition between (r : pattern) (n m : nat) : pattern := RQuant r n (Some m) true.
Definition at_least (r : pattern) (n : nat) : pattern := RQuant r n None true.

End Pattern.

(** ** The NLP configuration module *)

Module Nlp.
Import Pattern.
Local Open Scope char_scope.

(** [/\s+/g] *)
Definition whitespace_run : pattern := plus space.

(** [/[^\w\s.,!?'-]/g] *)
Definition special_character : pattern :=
  ncls [CWord; CSpace; one "."; one ","; one "!"; one "?"; one "'"; one "-"].

(** [preprocessText], over the case mapping of the runtime. *)
Definition preprocessText_with (lower : jsstring -> jsstring) (text : jsstring)
    : jsstring :=
  let processed := lower text in
  let processed :=
    trim (String_replace processed (literal whitespace_run true false) (js " ")).1 in
  let processed :=
    (String_replace processed (literal special_character true false) []).1 in
  processed.

Definition preprocessText (text : jsstring) : jsstring :=
  preprocessText_with toLowerCase text.

Record EntityConfig : Type := {
  regex : RegExp;
  examples : list string
}.

Definition word_boundary : pattern := RWordBoundary.

Definition person_regex : pattern :=
  seqs [word_boundary; cls [range "A" "Z"]; plus (cls [range "a" "z"]);
        plus space; cls [range "A" "Z"]; plus (cls [range "a" "z"]);
        word_boundary].

Definition date_regex : pattern :=
  RAlt
    (seqs [word_boundary; between digit 1 2; lit "/"; between digit 1 2;
           lit "/"; times digit 4; word_boundary])
    (seqs [word_boundary; times digit 4; lit "-"; times digit 2; lit "-";
           times digit 2; word_boundary]).

Definition time_regex : pattern :=
  seqs [word_boundary; between digit 1 2; lit ":"; times digit 2;
        opt (seqs [opt space; cls [one "A"; one "P"]; lit "M"]);
        word_boundary].

Definition email_regex : pattern :=
  seqs [word_boundary;
        plus (cls [range "A" "Z"; range "a" "z"; range "0" "9"; one ".";
                   one "_"; one "%"; one "+"; one "-"]);
        lit "@";
        plus (cls [range "A" "Z"; range "a" "z"; range "0" "9"; one ".";
                   one "-"]);
        lit ".";
        at_least (cls [range "A" "Z"; one "|"; range "a" "z"]) 2;
        word_boundary].

Definition phone_regex : pattern :=
  RAlt
    (seqs [word_boundary; times digit 3; lit "-"; times digit 3; lit "-";
           times digit 4; word_boundary])
    (seqs [word_boundary; lit "("; times digit 3; lit ")"; opt space;
           times digit 3; lit "-"; times digit 4; word_boundary]).

Definition number_regex : pattern :=
  seqs [word_boundary; plus digit; opt (seqs [lit "."; plus digit]);
        word_boundary].

Local Open Scope string_scope.

(** [entityTypes], in the order [Object.entries] lists its keys. *)
Definition entityTypes : list (string * EntityConfig) :=
  [ ("person", {| regex := literal person_regex true false;
                  examples := ["John Doe"; "Jane Smith"] |});
    ("date", {| regex := literal date_regex true false;
                examples := ["12/25/2023"; "2023-12-25"; "December 25, 2023"] |});
    ("time", {| regex := literal time_regex true true;
                examples := ["2:30 PM"; "14:30"; "2:30pm"] |});
    ("email", {| regex := literal email_regex true false;
                 examples := ["user@example.com"; "john.doe@company.org"] |});
    ("phone", {| regex := literal phone_regex true false;
                 examples := ["123-456-7890"; "(123) 456-7890"] |});
    ("number", {| regex := literal number_regex true false;
                  examples := ["123"; "45.67"; "1000"] |}) ].

Local Open Scope list_scope.

Record Entity : Type := {
  type : string;
  value : jsstring;
  start : Z;
  end_ : Z
}.

(** The body of the inner loop: one entity per element of [matches]. *)
Definition push_matches (entityType : string) (text : jsstring)
    (matches : list jsstring) : list Entity :=
  (fun m => {| type := entityType; value := m;
               start := indexOf text m;
               end_ := indexOf text m + Z.of_nat (length m) |}) <$> matches.

(** [extractentities], run on the module's table in the state [table]: the
    regular expressions are objects shared by all calls, so the function
    returns the table it leaves behind as well. *)
Fixpoint extractentities_in (table : list (string * EntityConfig))
    (text : jsstring) : list Entity * list (string * EntityConfig) :=
  match table with
  | [] => ([], [])
  | (entityType, entityConfig) :: rest =>
      let '(matches, R') := String_match text (regex entityConfig) in
      let found :=
        match matches with
        | Some ms => push_matches entityType text ms
        | None => []
        end in
      let '(more, rest') := extractentities_in rest text in
      (found ++ more,
       (entityType, {| regex := R'; examples := examples entityConfig |}) :: rest')
  end.

(** A call in the state the module is loaded in. *)
Definition extractentities (text : jsstring) : list Entity :=
  (extractentities_in entityTypes text).1.

(** The state of the table after the calls [history], oldest first. *)
Definition state_after (history : list jsstring) : list (string * EntityConfig) :=
  foldl (fun table text => (extractentities_in table text).2) entityTypes history.

End Nlp.

Export Nlp.

(** ** Sentiment *)

Module Sentiment.
Local Open Scope string_scope.
Local Open Scope list_scope.
Local Open Scope Q_scope.

(** What [sentimentAnalyzer.analyze] returns, as far as the module reads
    it.  Numbers are finite here (the lexicon weights are integers), so a
    rational stands for each. *)
Record Analysis : Type := {
  result_score : Q;
  result_comparative : Q;
  result_tokens : list string;
  result_positive : list string;
  result_negative : list string
}.

Record SentimentResult : Type := {
  score : Q;
  comparative : Q;
  tokens : list string;
  positive_ : list string;
  negative_ : list string;
  label : string
}.

Section AnalyzeSentiment.
(** The analyzer of the [sentiment] package and the validated environment
    value [env.NLP_SENTIMENT_THRESHOLD]. *)
Variable analyze : jsstring -> Analysis.
Variable NLP_SENTIMENT_THRESHOLD : Q.

Definition analyzeSentiment (text : jsstring) : SentimentResult :=
  let result := analyze text in
  {| score := result_score result;
     comparative := result_comparative result;
     tokens := result_tokens result;
     positive_ := result_positive result;
     negative_ := result_negative result;
     label :=
       if Qlt_le_dec NLP_SENTIMENT_THRESHOLD (result_score result) then "positive"
       else if Qlt_le_dec (result_score result) (- NLP_SENTIMENT_THRESHOLD)
            then "negative"
            else "neutral" |}.

End AnalyzeSentiment.

(** The default of [NLP_SENTIMENT_THRESHOLD] in the environment schema. *)
Definition default_threshold : Q := 5 # 10.

Section Scorer.
(** The lexicon: a polarity for the tokens it lists. *)
Variable lexicon : gmap string Z.
Variable tokenize : jsstring -> list string.

Definition polarity (token : string) : Z := default 0%Z (lexicon !! token).

Definition sum_polarity (toks : list string) : Z :=
  foldr (fun token acc => (polarity token + acc)%Z) 0%Z toks.

(** Modelled from the spec: the [analyze] method of the [sentiment]
    package, whose code is outside the repository sources.  It tokenizes
    the text, sums the lexicon polarity of the tokens into [score], and
    divides by the number of tokens for [comparative] (0 without
    tokens). *)
Definition analyze_spec (text : jsstring) : Analysis :=
  let toks := tokenize text in
  let total := sum_polarity toks in
  {| result_score := inject_Z total;
     result_comparative :=
       match toks with
       | [] => 0
       | _ => inject_Z total / inject_Z (Z.of_nat (length toks))
       end;
     result_tokens := toks;
     result_positive := filter (fun token => (0 < polarity token)%Z) toks;
     result_negative := filter (fun token => (polarity token < 0)%Z) toks |}.

End Scorer.

(** A tokenizer to run the scorer on examples: the maximal runs of
    characters other than the space. *)
Fixpoint split_spaces (current : list ascii) (text : list ascii) : list string :=
  let flush := match current with
               | [] => []
               | _ => [string_of_list_ascii (rev current)]
               end in
  match text with
  | [] => flush
  | c :: rest =>
      if Ascii.eqb c " "%char then flush ++ split_spaces [] rest
      else split_spaces (c :: current) rest
  end.

Definition words (text : jsstring) : list string :=
  split_spaces [] (ascii_of_N <$> text).

(** A lexicon to run the scorer on examples. *)
Definition sample_lexicon : gmap string Z :=
  {[ "good" := 3%Z; "bad" := (-3)%Z ]}.

End Sentiment.

Export Sentiment.

(** ** Classifier initialization *)

Module Manager.
Local Open Scope string_scope.
Local Open Scope list_scope.

Record IntentData : Type := {
  patterns : list string;
  entities : list string;
  responses : list string
}.

(** [intentCategories], in the order [Object.entries] lists its keys. *)
Definition intentCategories : list (string * IntentData) :=
  [ ("greeting",
     {| patterns :=
          ["hello"; "hi"; "hey"; "good morning"; "good afternoon";
           "good evening"; "greetings"; "howdy"; "what's up"; "how are you"];
        entities := [];
        responses :=
          ["Hello! How can I help you today?";
           "Hi there! What can I do for you?";
           "Greetings! How may I assist you?";
           "Hello! I'm here to help. What do you need?"] |});
    ("goodbye",
     {| patterns :=
          ["bye"; "goodbye"; "see you"; "farewell"; "take care";
           "have a good day"; "catch you later"; "until next time";
           "so long"; "adios"];
        entities := [];
        responses :=
          ["Goodbye! Have a great day!";
           "See you later! Take care!";
           "Farewell! Feel free to come back anytime.";
           "Bye! It was nice talking with you."] |});
    ("help",
     {| patterns :=
          ["help"; "can you help"; "I need help"; "assist me"; "support";
           "what can you do"; "how does this work"; "instructions"];
        entities := [];
        responses :=
          ["I'm here to help! You can ask me any question and I'll do my best to assist you.";
           "I can help you with various tasks. What specific help do you need?";
           "Sure! I'm designed to assist you. What would you like help with?"] |});
    ("question",
     {| patterns :=
          ["what is"; "who is"; "where is"; "when is"; "why is"; "how is";
           "what are"; "who are"; "where are"; "when are"; "why are";
           "how are"; "tell me about"; "explain"; "describe"];
        entities := ["topic"; "subject"];
        responses :=
          ["Let me help you with that question.";
           "I'll do my best to answer your question.";
           "That's a great question. Let me think about it."] |});
    ("compliment",
     {| patterns :=
          ["thank you"; "thanks"; "great job"; "well done"; "awesome";
           "you're helpful"; "good work"; "excellent"; "amazing"];
        entities := [];
        responses :=
          ["You're welcome! I'm glad I could be of help.";
           "Thank you! I appreciate your kind words.";
           "I'm happy to be of assistance!"] |});
    ("complaint",
     {| patterns :=
          ["this is wrong"; "you're not helpful"; "this doesn't work";
           "I'm frustrated"; "this is bad"; "terrible"; "awful"];
        entities := [];
        responses :=
          ["I apologize for any inconvenience. Let me try to help you better.";
           "I'm sorry this isn't working as expected. How can I improve?";
           "I understand your frustration. Let me see what I can do to help."] |}) ].

(** The part of a node-nlp [NlpManager] that initialization writes: the
    training documents (language, utterance, intent), the answers
    (language, intent, answer), the named entities, and whether [train]
    and [save] have been carried out. *)
Record NamedEntityText : Type := {
  entity_name : string;
  entity_option : string;
  entity_languages : list string;
  entity_texts : list string
}.

Record NlpManager : Type := {
  documents : list (string * string * string);
  answers : list (string * string * string);
  namedEntityTexts : list NamedEntityText;
  trained : bool;
  savedTo : option string
}.

Definition createNlpManager : NlpManager :=
  {| documents := []; answers := []; namedEntityTexts := [];
     trained := false; savedTo := None |}.

Definition addDocument (language utterance intent : string) (m : NlpManager)
    : NlpManager :=
  {| documents := documents m ++ [(language, utterance, intent)];
     answers := answers m; namedEntityTexts := namedEntityTexts m;
     trained := trained m; savedTo := savedTo m |}.

Definition addAnswer (language intent answer : string) (m : NlpManager)
    : NlpManager :=
  {| documents := documents m;
     answers := answers m ++ [(language, intent, answer)];
     namedEntityTexts := namedEntityTexts m;
     trained := trained m; savedTo := savedTo m |}.

Definition addNamedEntityText (e : NamedEntityText) (m : NlpManager)
    : NlpManager :=
  {| documents := documents m; answers := answers m;
     namedEntityTexts := namedEntityTexts m ++ [e];
     trained := trained m; savedTo := savedTo m |}.

Definition train (m : NlpManager) : NlpManager :=
  {| documents := documents m; answers := answers m;
     namedEntityTexts := namedEntityTexts m;
     trained := true; savedTo := savedTo m |}.

Definition save (modelPath : string) (m : NlpManager) : NlpManager :=
  {| documents := documents m; answers := answers m;
     namedEntityTexts := namedEntityTexts m;
     trained := trained m; savedTo := Some modelPath |}.

(** An entry of [intents.json]. *)
Record Intent : Type := {
  name : string;
  intent_responses : option (list string)
}.

(** What the function meets outside the module.  A training file that
    cannot be read or parsed is [None]; one that parses is taken to have
    the shape the loops expect.  [path] is the binding of the identifier
    [path], which the module uses and does not require.  [train_error]
    and [save_error] hold the message of the error with which
    [manager.train()] or [manager.save()] rejects, if it does. *)
Record World : Type := {
  path : option (string -> string);
  NLP_LANGUAGE : string;
  NLP_MODEL_PATH : string;
  intents_json : option (list Intent);
  utterances_json : option (gmap string (list string));
  entities_json : option (list NamedEntityText);
  train_error : option string;
  save_error : option string
}.

Inductive Level : Type := error | warn | info.

(** A call of the logger: level, message, and the second argument where
    one is passed. *)
Record LogEntry : Type := {
  level : Level;
  message : string;
  detail : option string
}.

Inductive Completion (A : Type) : Type :=
| Returned (a : A)
| Thrown (error_message : string).
Arguments Returned {A} a.
Arguments Thrown {A} error_message.

(** The two inner loops over one intent: a document per utterance, then
    an answer per response. *)
Definition add_intent (language intentName : string)
    (utterances answers_ : list string) (m : NlpManager) : NlpManager :=
  let m := foldl (fun m utterance => addDocument language utterance intentName m)
                 m utterances in
  foldl (fun m response => addAnswer language intentName response m) m answers_.

(** The [catch] branch of the inner [try]: the default intents. *)
Definition add_default_intents (language : string) (m : NlpManager) : NlpManager :=
  foldl (fun m entry =>
           add_intent language entry.1 (patterns entry.2) (responses entry.2) m)
        m intentCategories.

(** The names every object parsed from JSON inherits from
    [Object.prototype].  Looked up on such an object, a name among them
    that is not a key of the file yields a function (the prototype itself
    for [__proto__]): a value that is neither falsy nor iterable. *)
Definition Object_prototype_names : list string :=
  [ "constructor"; "__defineGetter__"; "__defineSetter__"; "hasOwnProperty";
    "__lookupGetter__"; "__lookupSetter__"; "isPrototypeOf";
    "propertyIsEnumerable"; "toString"; "valueOf"; "__proto__";
    "toLocaleString" ].

(** [utterances[intent.name] || []] as the loop over it sees it: the
    utterances to iterate, or [None] where the value found is not
    iterable and the [for ... of] throws a TypeError. *)
Definition intentUtterances (utterances : gmap string (list string))
    (intentName : string) : option (list string) :=
  match utterances !! intentName with
  | Some found => Some found
  | None =>
      if bool_decide (intentName ∈ Object_prototype_names) then None
      else Some []
  end.

(** The loop over [intents].  The result carries the manager as the loop
    leaves it and whether the loop ran to its end; it stops at the first
    intent whose utterances are not iterable, with the documents and
    answers of the intents before it already added. *)
Fixpoint add_intents (language : string) (intents : list Intent)
    (utterances : gmap string (list string)) (m : NlpManager)
    : NlpManager * bool :=
  match intents with
  | [] => (m, true)
  | intent :: rest =>
      match intentUtterances utterances (name intent) with
      | None => (m, false)
      | Some found =>
          add_intents language rest utterances
            (add_intent language (name intent) found
               (default [] (intent_responses intent)) m)
      end
  end.

(** The body of the inner [try] once the three files are loaded: the
    loop over the intents, then the loop over the entities.  The boolean
    is [false] where the body throws. *)
Definition add_training_data (language : string) (intents : list Intent)
    (utterances : gmap string (list string)) (ents : list NamedEntityText)
    (m : NlpManager) : NlpManager * bool :=
  let '(m, completed) := add_intents language intents utterances m in
  if completed then (foldl (fun m e => addNamedEntityText e m) m ents, true)
  else (m, false).

Definition InitializeNlpManager (w : World)
    : Completion NlpManager * list LogEntry :=
  let manager := createNlpManager in
  match path w with
  | None =>
      (Thrown "path is not defined",
       [ {| level := error; message := "Failed to initialize NLP manager:";
            detail := Some "path is not defined" |} ])
  | Some resolve =>
      let modelPath := resolve (NLP_MODEL_PATH w) in
      let defaults manager :=
        (add_default_intents (NLP_LANGUAGE w) manager,
         [ {| level := warn;
              message := "Training files not found or invalid. Using default intents";
              detail := None |} ]) in
      let '(manager, log) :=
        match intents_json w, utterances_json w with
        | Some intents, Some utterances =>
            let '(manager, completed) :=
              add_training_data (NLP_LANGUAGE w) intents utterances
                (default [] (entities_json w)) manager in
            if completed then
              (manager,
               [ {| level := info;
                    message := "Loaded training data from individual files";
                    detail := None |} ])
            else defaults manager
        | _, _ => defaults manager
        end in
      match train_error w with
      | None =>
          let manager := train manager in
          match save_error w with
          | None =>
              (Returned (save modelPath manager),
               log ++ [ {| level := info;
                           message := "NLP model trained and saved successfully";
                           detail := None |} ])
          | Some e =>
              (Returned manager,
               log ++ [ {| level := error; message := "Failed to save NLP model:";
                           detail := Some e |} ])
          end
      | Some e =>
          (Thrown e,
           log ++ [ {| level := error;
                       message := "Failed to initialize NLP manager:";
                       detail := Some e |} ])
      end
  end.

(** The module as it is loaded, started where no training file can be
    read: [path] names nothing, since the module requires no such
    binding. *)
Definition missing_corpus_world : World :=
  {| path := None; NLP_LANGUAGE := "en";
     NLP_MODEL_PATH := "./models/nlp-model.json";
     intents_json := None; utterances_json := None; entities_json := None;
     train_error := None; save_error := None |}.

(** The documents and answers the default intents amount to. *)
Definition default_documents (language : string) : list (string * string * string) :=
  entry ← intentCategories;
  (fun utterance => (language, utterance, entry.1)) <$> patterns entry.2.

Definition default_answers (language : string) : list (string * string * string) :=
  entry ← intentCategories;
  (fun response => (language, entry.1, response)) <$> responses entry.2.

End Manager.

Export Manager.

(** ** The Redis retry policy *)

Module Redis.
Local Open Scope string_scope.
Local Open Scope Z_scope.

(** [retryStrategy]: the delay returned and the warning logged. *)
Definition retryStrategy (times : Z) : Z * string :=
  let delay := Z.min (times * 100) 2000 in
  (delay,
   "Redis retry #" +:+ pretty times +:+ ", delaying for " +:+ pretty delay +:+ "ms").

End Redis.

Export Redis.

(** ** Specification vocabulary *)

Module Spec.

(** The pattern of [R] matches [S] from [p] to [e]; it fails at [j]. *)
Definition matches_at (S : jsstring) (R : RegExp) (p e : nat) : Prop :=
  compile S (ignoreCase R) (source R) p Some = Some e.

Definition no_match_at (S : jsstring) (R : RegExp) (j : nat) : Prop :=
  compile S (ignoreCase R) (source R) j Some = None.

(** [spans] are the successive leftmost matches of [R] in [S] from
    [i] on: each is the first position at or after the previous
    [lastIndex] where the pattern matches, and after the last one the
    pattern matches nowhere. *)
Fixpoint spans_from (S : jsstring) (R : RegExp) (i : nat)
    (spans : list (nat * nat)) : Prop :=
  match spans with
  | [] => forall j, i <= j <= length S -> no_match_at S R j
  | (p, e) :: rest =>
      i <= p /\ p <= e <= length S /\ matches_at S R p e /\
      (forall j, i <= j < p -> no_match_at S R j) /\
      spans_from S R (if e =? p then Datatypes.S e else e) rest
  end.

(** A matcher that only ever resumes its continuation inside the input,
    at or after the position it started from. *)
Definition well_behaved (S : jsstring) (m : Matcher) : Prop :=
  (forall x c z, x <= length S -> m x c = Some z ->
     exists y, x <= y <= length S /\ c y = Some z) /\
  (forall x c c', x <= length S ->
     (forall y, x <= y <= length S -> c y = c' y) -> m x c = m x c').

(** The allow-list of the normalizer: word characters, white space and
    the punctuation [.,!?'-]. *)
Definition allow_listed (c : N) : bool :=
  is_word c || is_space c || bool_decide (c ∈ js ".,!?'-").

(** The offsets of an entity are a span of [text] that holds its value. *)
Definition valid_offsets (text : jsstring) (e : Entity) : Prop :=
  (0 <= start e <= end_ e)%Z /\ (end_ e <= Z.of_nat (length text))%Z /\
  substring text (Z.to_nat (start e)) (Z.to_nat (end_ e)) = value e.

(** Two states of the entity table: the same patterns and flags, all
    global, whatever the [lastIndex] fields hold. *)
Definition same_regexp (R1 R2 : RegExp) : Prop :=
  source R1 = source R2 /\ ignoreCase R1 = ignoreCase R2 /\
  global R1 = true /\ global R2 = true.

Definition same_table (t1 t2 : list (string * EntityConfig)) : Prop :=
  Forall2 (fun a b => a.1 = b.1 /\ same_regexp (regex a.2) (regex b.2)) t1 t2.

End Spec.

Export Spec.

(** ** The normalizer, step by step *)

Module NormalForm.

(** [A-Z] *)
Definition is_upper (c : N) : bool := in_range 0x41 0x5a c.

(** The length of the white space that a string starts with. *)
Fixpoint ws_run (s : jsstring) : nat :=
  match s with
  | c :: rest => if is_space c then Datatypes.S (ws_run rest) else 0
  | [] => 0
  end.

(** Every maximal run of white space becomes one space; [in_run] tells
    that the characters just before were white space already. *)
Fixpoint collapse_from (in_run : bool) (s : jsstring) : jsstring :=
  match s with
  | [] => []
  | c :: rest =>
      if is_space c then
        if in_run then collapse_from true rest
        else 0x20%N :: collapse_from true rest
      else c :: collapse_from false rest
  end.

Definition collapse_whitespace (s : jsstring) : jsstring := collapse_from false s.

(** No white space but the space, and no two spaces in a row;
    [after_space] tells that a space came just before. *)
Fixpoint collapsed_from (after_space : bool) (s : jsstring) : bool :=
  match s with
  | [] => true
  | c :: rest =>
      if is_space c then (c =? 0x20)%N && negb after_space && collapsed_from true rest
      else collapsed_from false rest
  end.

(** The strings the normalizer leaves as they are: allow-listed
    characters without capitals, single spaces between words only. *)
Definition normal (s : jsstring) : Prop :=
  Forall (fun c => allow_listed c = true) s /\
  Forall (fun c => is_upper c = false) s /\
  collapsed_from false s = true /\
  trim s = s.

End NormalForm.

Export NormalForm.

(** ** Static facts about patterns *)

Module PatternFacts.

(** A lower bound on the length of what a pattern matches. *)
Fixpoint min_len (r : pattern) : nat :=
  match r with
  | REmpty => 0
  | RChar _ => 1
  | RClass _ _ => 1
  | RWordBoundary => 0
  | RSeq r1 r2 => min_len r1 + min_len r2
  | RAlt r1 r2 => Nat.min (min_len r1) (min_len r2)
  | RQuant r' min max _ =>
      (match max with Some bound => Nat.min min bound | None => min end)
      * min_len r'
  end.

(** Every match of the pattern steps over a character with the property
    [P]. *)
Inductive Needs (ic : bool) (P : N -> Prop) : pattern -> Prop :=
| Needs_char a :
    (forall c, class_has ic [CChar a] c = true -> P c) ->
    Needs ic P (RChar a)
| Needs_class invert A :
    (forall c, xorb invert (class_has ic A c) = true -> P c) ->
    Needs ic P (RClass invert A)
| Needs_seq_l r1 r2 : Needs ic P r1 -> Needs ic P (RSeq r1 r2)
| Needs_seq_r r1 r2 : Needs ic P r2 -> Needs ic P (RSeq r1 r2)
| Needs_alt r1 r2 : Needs ic P r1 -> Needs ic P r2 -> Needs ic P (RAlt r1 r2)
| Needs_quant r min max greedy :
    Needs ic P r -> 1 <= min -> max <> Some 0 ->
    Needs ic P (RQuant r min max greedy).

(** The entity that the extractor builds from a matched value. *)
Definition entity_of (entityType : string) (text m : jsstring) : Entity :=
  {| type := entityType; value := m;
     start := indexOf text m;
     end_ := indexOf text m + Z.of_nat (length m) |}.

End PatternFacts.

Export PatternFacts.

(** ** The environment configuration *)

Module EnvConfig.
Local Open Scope string_scope.
Local Open Scope Z_scope.

(** [String.prototype.split] with a one-character separator: the pieces
    between the separators, one piece more than there are separators. *)
Fixpoint split (separator : N) (s : jsstring) : list jsstring :=
  match s with
  | [] => [[]]
  | c :: rest =>
      if (c =? separator)%N then [] :: split separator rest
      else match split separator rest with
           | piece :: pieces => (c :: piece) :: pieces
           | [] => [[c]]
           end
  end.

(** [Array.prototype.join] with a one-character separator. *)
Fixpoint join (separator : N) (pieces : list jsstring) : jsstring :=
  match pieces with
  | [] => []
  | [piece] => piece
  | piece :: more => piece ++ separator :: join separator more
  end.

Inductive NodeEnv : Type := development | production | test.
Inductive LogLevel : Type := level_error | level_warn | level_info | level_debug.
Inductive LogFormat : Type := format_json | format_simple.

(** The validated environment, as far as the configurations read it. *)
Record Env : Type := {
  NODE_ENV : NodeEnv;
  PORT : Z;
  DATABASE_URL : jsstring;
  TEST_DATABASE_URL : option jsstring;
  REDIS_HOST : jsstring;
  REDIS_PORT : Z;
  REDIS_PASSWORD : option jsstring;
  REDIS_DB : Z;
  CORS_ORIGIN : jsstring;
  CORS_METHODS : jsstring;
  LOG_LEVEL : LogLevel;
  LOG_FORMAT : LogFormat
}.

Record ServerConfig : Type := { port : Z; host : jsstring }.
Record DatabaseConfig : Type := { url : jsstring; logging : bool }.
Record RedisConfig : Type := {
  redis_host : jsstring;
  redis_port : Z;
  password : option jsstring;
  db : Z;
  retryDelayOnFailover : Z;
  maxRetriesPerRequest : Z;
  connectTimeout : option Z
}.

(** [cors.origin] is a string, an array of strings or [false]. *)
Inductive Origin : Type :=
| OriginString (s : jsstring)
| OriginList (l : list jsstring)
| OriginFalse.

Record CorsConfig : Type := {
  origin : Origin;
  methods : list jsstring;
  credentials : bool
}.

Record FileConfig : Type := {
  enabled : bool;
  filename : option jsstring;
  maxSize : option jsstring;
  maxFiles : option jsstring
}.

Record LoggingConfig : Type := {
  log_level : LogLevel;
  log_format : LogFormat;
  file : FileConfig
}.

Record Config : Type := {
  server : ServerConfig;
  database : DatabaseConfig;
  redis : RedisConfig;
  cors : CorsConfig;
  logging_ : LoggingConfig
}.

(** [a || b] on strings that may be undefined: the empty string is falsy
    too. *)
Definition or_string (a : option jsstring) (b : jsstring) : jsstring :=
  match a with
  | Some (c :: s) => c :: s
  | _ => b
  end.

Definition configurations (env : Env) (which : NodeEnv) : Config :=
  match which with
  | development =>
      {| server := {| port := PORT env; host := js "localhost" |};
         database := {| url := DATABASE_URL env; logging := true |};
         redis := {| redis_host := REDIS_HOST env; redis_port := REDIS_PORT env;
                     password := REDIS_PASSWORD env; db := REDIS_DB env;
                     retryDelayOnFailover := 100; maxRetriesPerRequest := 3;
                     connectTimeout := None |};
         cors := {| origin := OriginString (CORS_ORIGIN env);
                    methods := split (ch ",") (CORS_METHODS env);
                    credentials := true |};
         logging_ := {| log_level := LOG_LEVEL env; log_format := LOG_FORMAT env;
                        file := {| enabled := true;
                                   filename := Some (js "logs/app.log");
                                   maxSize := Some (js "20m");
                                   maxFiles := Some (js "14d") |} |} |}
  | production =>
      {| server := {| port := PORT env; host := js "0.0.0.0" |};
         database := {| url := DATABASE_URL env; logging := false |};
         redis := {| redis_host := REDIS_HOST env; redis_port := REDIS_PORT env;
                     password := REDIS_PASSWORD env; db := REDIS_DB env;
                     retryDelayOnFailover := 100; maxRetriesPerRequest := 3;
                     connectTimeout := Some 10000 |};
         cors := {| origin :=
                      if bool_decide (CORS_ORIGIN env = js "*") then OriginFalse
                      else OriginList (split (ch ",") (CORS_ORIGIN env));
                    methods := split (ch ",") (CORS_METHODS env);
                    credentials := true |};
         logging_ := {| log_level := level_error; log_format := format_json;
                        file := {| enabled := true;
                                   filename := Some (js "logs/app.log");
                                   maxSize := Some (js "50m");
                                   maxFiles := Some (js "30d") |} |} |}
  | test =>
      {| server := {| port := PORT env; host := js "localhost" |};
         database := {| url := or_string (TEST_DATABASE_URL env) (DATABASE_URL env);
                        logging := false |};
         redis := {| redis_host := REDIS_HOST env; redis_port := REDIS_PORT env;
                     password := REDIS_PASSWORD env; db := REDIS_DB env + 1;
                     retryDelayOnFailover := 100; maxRetriesPerRequest := 1;
                     connectTimeout := None |};
         cors := {| origin := OriginString (js "*");
                    methods := [js "GET"; js "POST"; js "PUT"; js "DELETE"];
                    credentials := true |};
         logging_ := {| log_level := level_error; log_format := format_simple;
                        file := {| enabled := false; filename := None;
                                   maxSize := None; maxFiles := None |} |} |}
  end.

Definition config (env : Env) : Config := configurations env (NODE_ENV env).

Definition isDevelopment (env : Env) : bool :=
  match NODE_ENV env with development => true | _ => false end.
Definition isProduction (env : Env) : bool :=
  match NODE_ENV env with production => true | _ => false end.
Definition isTest (env : Env) : bool :=
  match NODE_ENV env with test => true | _ => false end.

End EnvConfig.

(** ** The database module *)

Module Database.
Import EnvConfig.
Local Open Scope string_scope.
Local Open Scope Z_scope.

Record Pagination : Type := { skip : Z; take : Z }.

(** [paginate]; an argument left out is [None] and takes its default. *)
Definition paginate (page limit : option Z) : Pagination :=
  let page := default 1 page in
  let limit := default 10 limit in
  {| skip := (page - 1) * limit; take := limit |}.

(** [prismaLogLevels]: the levels, each emitted as an event. *)
Definition prismaLogLevels (env : Env) : list (string * string) :=
  let levels := ["error"; "warn"] in
  let levels :=
    if logging (database (config env)) then
      if isDevelopment env then (levels ++ ["query"; "info"])%list else levels
    else levels in
  (fun level => ("event", level)) <$> levels.

(** The Prisma client as the module builds it: its options and the events
    it has listeners for. *)
Record PrismaClient : Type := {
  datasource_url : jsstring;
  log : list (string * string);
  errorFormat : string;
  listeners : list string
}.

(** The state that [createPrismaClient] works on: the variable [prisma]
    of the module and the handlers registered on [process]. *)
Record State : Type := {
  prisma : option PrismaClient;
  process_handlers : list string
}.

Definition initial : State := {| prisma := None; process_handlers := [] |}.

Definition createPrismaClient (env : Env) (st : State) : PrismaClient * State :=
  match prisma st with
  | Some client => (client, st)
  | None =>
      let client :=
        {| datasource_url := url (database (config env));
           log := prismaLogLevels env;
           errorFormat := if isDevelopment env then "pretty" else "colorless";
           listeners :=
             ((if isDevelopment env then ["query"] else []) ++
              ["error"; "warn"; "info"])%list |} in
      (client,
       {| prisma := Some client;
          process_handlers :=
            (process_handlers st ++
             ["SIGINT"; "SIGTERM"; "beforeExit"; "unhandledRejection";
              "uncaughtException"])%list |})
  end.

(** The state after [n] calls. *)
Fixpoint after_calls (env : Env) (n : nat) (st : State) : State :=
  match n with
  | 0%nat => st
  | Datatypes.S n' => after_calls env n' (createPrismaClient env st).2
  end.

End Database.

(** ** The logger's own methods *)

Module Logger.
Local Open Scope string_scope.

(** The values that the methods put into the metadata of an entry. *)
Inductive Value : Type :=
| VUndefined
| VNull
| VBoolean (b : bool)
| VNumber (n : Z)
| VString (s : jsstring).

(** A call of [logger.info], [logger.warn] or [logger.error]: the level,
    the message and the metadata object. *)
Record Entry : Type := {
  entry_level : string;
  entry_message : string;
  meta : gmap string Value
}.

(** The part of a chat response that the logger reads. *)
Record Response : Type := {
  response_type : Value;
  response_intent : Value;
  response_confidence : Value
}.

(** [x?.f]: undefined when [x] is undefined or null. *)
Definition optional {A} (x : option A) (f : A -> Value) : Value :=
  match x with
  | Some a => f a
  | None => VUndefined
  end.

(** [logChatInteraction]; [now] is [new Date().toISOString()]. *)
Definition logChatInteraction (now : jsstring) (sessionId : Value)
    (message : option jsstring) (response : option Response)
    (processingTime : Value) : Entry :=
  {| entry_level := "info";
     entry_message := "Chat Interaction";
     meta :=
       <["timestamp" := VString now]>
       (<["processingTime" := processingTime]>
       (<["confidence" := optional response response_confidence]>
       (<["intent" := optional response response_intent]>
       (<["responseType" := optional response response_type]>
       (<["message" := optional message (fun m => VString (substring m 0 100))]>
       (<["sessionId" := sessionId]>
       (<["type" := VString (js "CHAT")]> ∅))))))) |}.

(** [logAuth], [data] defaulting to the empty object: the properties of
    an object literal are written in order, a spread writes the
    properties of its argument, and a later write replaces an earlier
    one. *)
Definition logAuth (now : jsstring) (event : Value)
    (data : option (gmap string Value)) : Entry :=
  let data := default ∅ data in
  {| entry_level := "info";
     entry_message := "Authentication Event";
     meta :=
       <["timestamp" := VString now]>
       (data ∪ <["event" := event]> (<["type" := VString (js "AUTH")]> ∅)) |}.

Definition logSecurity (now : jsstring) (event : Value)
    (data : option (gmap string Value)) : Entry :=
  let data := default ∅ data in
  {| entry_level := "warn";
     entry_message := "Security Event";
     meta :=
       <["timestamp" := VString now]>
       (data ∪ <["event" := event]> (<["type" := VString (js "SECURITY")]> ∅)) |}.

(** What [logError] is given: an [Error] object or any other value. *)
Inductive Raised : Type :=
| ErrorObject (error_message : jsstring) (stack : Value)
| OtherValue (v : Value).

Definition logError (now : jsstring) (error : Raised)
    (context : option (gmap string Value)) : Entry :=
  let context := default ∅ context in
  let message := match error with
                 | ErrorObject m _ => VString m
                 | OtherValue v => v
                 end in
  let stack := match error with
               | ErrorObject _ s => s
               | OtherValue _ => VNull
               end in
  {| entry_level := "error";
     entry_message := "Application Error";
     meta :=
       <["timestamps" := VString now]>
       (context ∪
        <["stack" := stack]>
        (<["message" := message]> (<["type" := VString (js "ERROR")]> ∅))) |}.

End Logger.

(** ** An example environment *)

Module ConfigExamples.
Import EnvConfig.

(** Production, with two allowed origins and the default methods. *)
Definition production_env : Env :=
  {| NODE_ENV := production;
     PORT := 3000;
     DATABASE_URL := js "postgresql://db.example.com/chatbot";
     TEST_DATABASE_URL := None;
     REDIS_HOST := js "localhost";
     REDIS_PORT := 6379;
     REDIS_PASSWORD := None;
     REDIS_DB := 0;
     CORS_ORIGIN := js "https://a.example.com,https://b.example.com";
     CORS_METHODS := js "GET,HEAD,PUT,PATCH,POST,DELETE";
     LOG_LEVEL := level_info;
     LOG_FORMAT := format_json |}.

End ConfigExamples.

(** * Properties *)

(** ** The matcher *)

Section MatcherFacts.
Variable Input : jsstring.
Variable ic : bool.

(** The two views of case-insensitive comparison agree. *)
Lemma canonical_class_spec (a c : N) :
  a ∈ canonical_class ic c <-> Canonicalize ic a = Canonicalize ic c.
Proof.
  unfold canonical_class, Canonicalize, in_range.
  destruct ic; cbn [andb]; [|rewrite elem_of_cons, elem_of_nil; tauto].
  repeat match goal with
         | |- context [(?x <=? ?y)%N] => destruct (N.leb_spec x y)
         end; cbn [andb]; rewrite ?elem_of_cons, ?elem_of_nil; lia.
Qed.

Lemma CharacterSetMatcher_well_behaved invert A :
  well_behaved Input (CharacterSetMatcher Input ic invert A).
Proof.
  split.
  - intros x c z _ H. unfold CharacterSetMatcher in H.
    destruct (Input !! x) as [chr|] eqn:Hx; [|done].
    destruct (xorb _ _); [|done].
    apply lookup_lt_Some in Hx. exists (S x). split; [lia|done].
  - intros x c c' _ Hc. unfold CharacterSetMatcher.
    destruct (Input !! x) as [chr|] eqn:Hx; [|done].
    destruct (xorb _ _); [|done].
    apply lookup_lt_Some in Hx. apply Hc. lia.
Qed.

Lemma WordBoundary_well_behaved : well_behaved Input (WordBoundary Input).
Proof.
  split.
  - intros x c z Hx H. unfold WordBoundary in H.
    destruct (xorb _ _); [|done]. exists x. split; [lia|done].
  - intros x c c' Hx Hc. unfold WordBoundary.
    destruct (xorb _ _); [|done]. apply Hc. lia.
Qed.

Lemma RepeatMatcher_well_behaved m :
  well_behaved Input m ->
  forall fuel min max greedy,
    well_behaved Input (RepeatMatcher fuel m min max greedy).
Proof.
  intros [Hm1 Hm2] fuel.
  induction fuel as [|fuel IH]; intros min max greedy.
  { split; intros; simpl in *; done. }
  assert (Hd1 : forall x c z y,
             x <= length Input -> x <= y <= length Input ->
             (if (min =? 0) && (y =? x) then None
              else RepeatMatcher fuel m (pred min) (pred <$> max) greedy y c) = Some z ->
             exists y', x <= y' <= length Input /\ c y' = Some z).
  { intros x c z y Hx Hy H. destruct ((min =? 0) && (y =? x)); [done|].
    apply (proj1 (IH _ _ _)) in H as (y' & Hy' & Hc); [|lia].
    exists y'. split; [lia|done]. }
  assert (Hd2 : forall x c c' y,
             x <= y <= length Input ->
             (forall y, x <= y <= length Input -> c y = c' y) ->
             (if (min =? 0) && (y =? x) then None
              else RepeatMatcher fuel m (pred min) (pred <$> max) greedy y c) =
             (if (min =? 0) && (y =? x) then None
              else RepeatMatcher fuel m (pred min) (pred <$> max) greedy y c')).
  { intros x c c' y Hy Hc. destruct ((min =? 0) && (y =? x)); [done|].
    apply (proj2 (IH _ _ _)); [lia|]. intros y' Hy'. apply Hc. lia. }
  split.
  - intros x c z Hx H. simpl in H.
    assert (Hstep : forall z',
               m x (fun y => if (min =? 0) && (y =? x) then None
                             else RepeatMatcher fuel m (pred min) (pred <$> max) greedy y c)
               = Some z' ->
               exists y, x <= y <= length Input /\ c y = Some z').
    { intros z' Hz. apply Hm1 in Hz as (y & Hy & Hz); [|done].
      eapply Hd1; eauto. }
    assert (Hhere : forall z', c x = Some z' ->
               exists y, x <= y <= length Input /\ c y = Some z').
    { intros z' Hz. exists x. split; [lia|done]. }
    destruct max as [[|k]|]; [by apply Hhere| |].
    all: destruct (negb (min =? 0)); [by apply Hstep|].
    all: destruct greedy.
    all: repeat match type of H with
           | match ?e with Some _ => _ | None => _ end = _ =>
               let E := fresh "E" in destruct e eqn:E; simplify_eq
           end; eauto.
  - intros x c c' Hx Hc. simpl.
    assert (Hstep :
      m x (fun y => if (min =? 0) && (y =? x) then None
                    else RepeatMatcher fuel m (pred min) (pred <$> max) greedy y c) =
      m x (fun y => if (min =? 0) && (y =? x) then None
                    else RepeatMatcher fuel m (pred min) (pred <$> max) greedy y c')).
    { apply Hm2; [done|]. intros y Hy. by apply Hd2 with (x := x). }
    assert (Hhere : c x = c' x) by (apply Hc; lia).
    destruct max as [[|k]|]; [done| |].
    all: rewrite Hstep, Hhere; done.
Qed.

Lemma compile_well_behaved r : well_behaved Input (compile Input ic r).
Proof.
  induction r as [|a|invert A| |r1 IH1 r2 IH2|r1 IH1 r2 IH2|r IH min max greedy];
    cbn [compile].
  - split.
    + intros x c z Hx H. exists x. split; [lia|done].
    + intros x c c' Hx Hc. apply Hc. lia.
  - apply CharacterSetMatcher_well_behaved.
  - apply CharacterSetMatcher_well_behaved.
  - apply WordBoundary_well_behaved.
  - destruct IH1 as [A1 B1], IH2 as [A2 B2]. split.
    + intros x c z Hx H.
      apply A1 in H as (y & Hy & H); [|done].
      apply A2 in H as (y' & Hy' & H); [|lia].
      exists y'. split; [lia|done].
    + intros x c c' Hx Hc. apply B1; [done|]. intros y Hy.
      apply B2; [lia|]. intros y' Hy'. apply Hc. lia.
  - destruct IH1 as [A1 B1], IH2 as [A2 B2]. split.
    + intros x c z Hx H.
      destruct (compile Input ic r1 x c) eqn:E; simplify_eq; eauto.
    + intros x c c' Hx Hc.
      rewrite (B1 x c c'), (B2 x c c'); done.
  - apply RepeatMatcher_well_behaved, IH.
Qed.

(** Enough fuel: from [min + (InputLength - x) + 1] unfoldings on, the
    result of [RepeatMatcher] no longer depends on the fuel. *)
Lemma RepeatMatcher_fuel m :
  well_behaved Input m ->
  forall fuel1 fuel2 min max greedy x c,
    x <= length Input ->
    min + (length Input - x) < fuel1 ->
    min + (length Input - x) < fuel2 ->
    RepeatMatcher fuel1 m min max greedy x c =
    RepeatMatcher fuel2 m min max greedy x c.
Proof.
  intros [Hm1 Hm2] fuel1.
  induction fuel1 as [|fuel1 IH]; intros fuel2 min max greedy x c Hx H1 H2;
    [lia|].
  destruct fuel2 as [|fuel2]; [lia|]. simpl.
  assert (Hstep :
    m x (fun y => if (min =? 0) && (y =? x) then None
                  else RepeatMatcher fuel1 m (pred min) (pred <$> max) greedy y c) =
    m x (fun y => if (min =? 0) && (y =? x) then None
                  else RepeatMatcher fuel2 m (pred min) (pred <$> max) greedy y c)).
  { apply Hm2; [done|]. intros y Hy.
    destruct (min =? 0) eqn:Hmin; simpl.
    - destruct (y =? x) eqn:Hyx; [done|].
      apply Nat.eqb_eq in Hmin. apply Nat.eqb_neq in Hyx.
      apply IH; lia.
    - apply Nat.eqb_neq in Hmin. apply IH; lia. }
  destruct max as [[|k]|]; [done| |]; rewrite Hstep; done.
Qed.

Lemma scan_spec m n i p e :
  scan m n i = Some (p, e) ->
  i <= p < i + n /\ m p Some = Some e /\
  forall j, i <= j < p -> m j Some = None.
Proof.
  revert i. induction n as [|n IH]; intros i H; simpl in H; [done|].
  destruct (m i Some) as [z|] eqn:E.
  - simplify_eq. split; [lia|]. split; [done|]. intros j Hj. lia.
  - apply IH in H as (Hp & Hm & Hnone). split; [lia|]. split; [done|].
    intros j Hj. destruct (decide (j = i)) as [->|]; [done|].
    apply Hnone. lia.
Qed.

Lemma scan_None m n i :
  scan m n i = None -> forall j, i <= j < i + n -> m j Some = None.
Proof.
  revert i. induction n as [|n IH]; intros i H j Hj; simpl in H; [lia|].
  destruct (m i Some) as [z|] eqn:E; [done|].
  destruct (decide (j = i)) as [->|]; [done|].
  apply (IH (S i)); [done|lia].
Qed.

Lemma exec_from_Some r i p e :
  exec_from Input ic r i = Some (p, e) ->
  i <= p /\ p <= e <= length Input /\
  compile Input ic r p Some = Some e /\
  forall j, i <= j < p -> compile Input ic r j Some = None.
Proof.
  unfold exec_from, InputLength. intros H.
  apply scan_spec in H as (Hp & Hm & Hnone).
  assert (p <= length Input) by lia.
  destruct (proj1 (compile_well_behaved r) p Some e) as (y & Hy & Heq);
    [done|done|].
  simplify_eq. repeat split; try done; lia.
Qed.

Lemma exec_from_None r i :
  exec_from Input ic r i = None ->
  forall j, i <= j <= length Input -> compile Input ic r j Some = None.
Proof.
  unfold exec_from, InputLength. intros H j Hj.
  apply (scan_None _ _ _ H). lia.
Qed.

End MatcherFacts.

(** The quantifier case of [compile] gives [RepeatMatcher] enough fuel:
    more fuel does not change what it computes. *)
Lemma compile_quant_fuel Input ic r min max greedy fuel x c :
  x <= length Input ->
  min + (length Input - x) < fuel ->
  RepeatMatcher fuel (compile Input ic r) min max greedy x c =
  compile Input ic (RQuant r min max greedy) x c.
Proof.
  intros Hx Hfuel. cbn [compile].
  apply (RepeatMatcher_fuel Input); [apply compile_well_behaved|done|done|].
  unfold InputLength. lia.
Qed.

(** ** The match loop *)

Section LoopFacts.
Variable S : jsstring.

Lemma spans_from_set_lastIndex R k i spans :
  spans_from S (set_lastIndex R k) i spans <-> spans_from S R i spans.
Proof.
  revert i. induction spans as [|[p e] rest IH]; intros i; cbn; [done|].
  by rewrite IH.
Qed.

Lemma spans_from_same R1 R2 i spans :
  source R1 = source R2 -> ignoreCase R1 = ignoreCase R2 ->
  spans_from S R1 i spans <-> spans_from S R2 i spans.
Proof.
  intros Hs Hi. revert i.
  induction spans as [|[p e] rest IH]; intros i; cbn;
    unfold no_match_at, matches_at; rewrite Hs, Hi; [done|].
  by rewrite IH.
Qed.

Lemma global_loop_spec fuel R :
  global R = true ->
  lastIndex R <= Datatypes.S (length S) ->
  length S + 2 <= fuel + lastIndex R ->
  spans_from S R (lastIndex R) (global_loop fuel R S).1 /\
  (global_loop fuel R S).2 = set_lastIndex R 0.
Proof.
  revert R. induction fuel as [|fuel IH]; intros R Hg Hi Hfuel; [lia|].
  cbn [global_loop]. unfold RegExpBuiltinExec. rewrite Hg.
  destruct (exec_from S (ignoreCase R) (source R) (lastIndex R))
    as [[p e]|] eqn:Hexec.
  - apply exec_from_Some in Hexec as (Hp & He & Hm & Hnone).
    set (R'' := if e =? p
                then set_lastIndex (set_lastIndex R e)
                       (Datatypes.S (lastIndex (set_lastIndex R e)))
                else set_lastIndex R e).
    assert (HR'' : R'' = set_lastIndex R (if e =? p then Datatypes.S e else e)).
    { subst R''. by destruct (e =? p). }
    destruct (IH R'') as [Hspans Hend].
    { rewrite HR''. done. }
    { rewrite HR''. cbn. destruct (e =? p); lia. }
    { rewrite HR''. cbn. destruct (e =? p) eqn:E; [|apply Nat.eqb_neq in E]; lia. }
    destruct (global_loop fuel R'' S) as [rest Rend]. cbn in *.
    rewrite HR'' in Hspans, Hend. cbn in Hspans, Hend.
    apply spans_from_set_lastIndex in Hspans.
    split; [|done]. repeat split; try done; lia.
  - cbn. split; [|done]. intros j Hj.
    by apply (exec_from_None _ _ _ _ Hexec).
Qed.

Lemma spans_from_unique R i spans1 spans2 :
  spans_from S R i spans1 -> spans_from S R i spans2 -> spans1 = spans2.
Proof.
  revert i spans2.
  induction spans1 as [|[p1 e1] rest1 IH]; intros i [|[p2 e2] rest2] H1 H2.
  - done.
  - destruct H2 as (Hp & He & Hm & _). cbn in H1.
    specialize (H1 p2). unfold no_match_at, matches_at in *.
    rewrite H1 in Hm; [done|lia].
  - destruct H1 as (Hp & He & Hm & _). cbn in H2.
    specialize (H2 p1). unfold no_match_at, matches_at in *.
    rewrite H2 in Hm; [done|lia].
  - destruct H1 as (Hp1 & He1 & Hm1 & Hn1 & Hr1).
    destruct H2 as (Hp2 & He2 & Hm2 & Hn2 & Hr2).
    unfold no_match_at, matches_at in *.
    assert (p1 = p2) as ->.
    { destruct (Nat.lt_trichotomy p1 p2) as [Hlt|[->|Hlt]]; [|done|].
      - rewrite Hn2 in Hm1; [done|lia].
      - rewrite Hn1 in Hm2; [done|lia]. }
    assert (e1 = e2) as -> by congruence.
    f_equal. by eapply IH.
Qed.

(** Enough fuel: the loop run by [match_results] has found every match
    when it stops, and more fuel gives the same result. *)
Lemma global_loop_fuel fuel1 fuel2 R :
  global R = true ->
  lastIndex R <= Datatypes.S (length S) ->
  length S + 2 <= fuel1 + lastIndex R ->
  length S + 2 <= fuel2 + lastIndex R ->
  global_loop fuel1 R S = global_loop fuel2 R S.
Proof.
  intros Hg Hi H1 H2.
  destruct (global_loop_spec fuel1 R Hg Hi H1) as [Hs1 Hr1].
  destruct (global_loop_spec fuel2 R Hg Hi H2) as [Hs2 Hr2].
  destruct (global_loop fuel1 R S) as [s1 r1], (global_loop fuel2 R S) as [s2 r2].
  cbn in *. f_equal; [by eapply spans_from_unique|congruence].
Qed.

Lemma match_results_global R :
  global R = true ->
  spans_from S R 0 (match_results R S).1 /\
  (match_results R S).2 = set_lastIndex R 0.
Proof.
  intros Hg. unfold match_results. rewrite Hg.
  destruct (global_loop_spec (Datatypes.S (Datatypes.S (length S)))
              (set_lastIndex R 0)) as [Hs Hr]; [done|cbn; lia|cbn; lia|].
  split; [by apply spans_from_set_lastIndex in Hs|exact Hr].
Qed.

Lemma global_loop_in_range fuel R :
  Forall (fun span => span.1 <= span.2 <= length S) (global_loop fuel R S).1.
Proof.
  revert R. induction fuel as [|fuel IH]; intros R; cbn [global_loop]; [done|].
  unfold RegExpBuiltinExec.
  destruct (exec_from S (ignoreCase R) (source R)
              (if global R then lastIndex R else 0)) as [[p e]|] eqn:Hexec;
    [|done].
  apply exec_from_Some in Hexec as (_ & He & _).
  match goal with |- context [global_loop fuel ?R'' S] =>
    specialize (IH R''); destruct (global_loop fuel R'' S) as [rest Rend] end.
  cbn in *. by constructor.
Qed.

Lemma match_results_in_range R :
  Forall (fun span => span.1 <= span.2 <= length S) (match_results R S).1.
Proof.
  unfold match_results. destruct (global R) eqn:Hg.
  - apply global_loop_in_range.
  - unfold RegExpBuiltinExec. rewrite Hg. cbv beta iota.
    destruct (exec_from S (ignoreCase R) (source R) 0) as [[p e]|] eqn:Hexec;
      cbn; [|done].
    apply exec_from_Some in Hexec as (_ & He & _).
    constructor; [done|constructor].
Qed.

(** Every element of the array returned by [match] is a substring of the
    subject. *)
Lemma String_match_substrings R ms :
  (String_match S R).1 = Some ms ->
  Forall (fun m => exists p e, p <= e <= length S /\ m = substring S p e) ms.
Proof.
  unfold String_match. pose proof (match_results_in_range R) as Hr.
  destruct (match_results R S) as [spans R']. cbn in Hr.
  destruct spans as [|span spans]; cbn; [done|]. intros [= <-].
  rewrite <- (fmap_cons (fun span => substring S span.1 span.2)).
  rewrite Forall_fmap. eapply Forall_impl; [exact Hr|].
  intros [p e] Hpe. exists p, e. done.
Qed.

(** A global pattern starts from [lastIndex = 0] whatever the object held
    before. *)
Lemma match_results_lastIndex R1 R2 :
  same_regexp R1 R2 ->
  (match_results R1 S).1 = (match_results R2 S).1 /\
  same_regexp R1 (match_results R2 S).2.
Proof.
  intros (Hs & Hi & Hg1 & Hg2).
  destruct (match_results_global R1 Hg1) as [Hs1 Hr1].
  destruct (match_results_global R2 Hg2) as [Hs2 Hr2].
  split.
  - eapply spans_from_unique; [exact Hs1|].
    by apply (spans_from_same R1 R2).
  - rewrite Hr2. done.
Qed.

End LoopFacts.

(** ** [indexOf] *)

Lemma starts_with_spec (text s : jsstring) :
  starts_with text s = true <-> take (length s) text = s.
Proof.
  revert text. induction s as [|a s IH]; intros [|b text]; cbn; try done.
  rewrite andb_true_iff, N.eqb_eq, IH. split.
  - intros [-> ->]. done.
  - intros [= -> Ht]. done.
Qed.

Lemma indexOf_from_spec (text s : jsstring) k p :
  take (length s) (drop p text) = s ->
  exists i, indexOf_from text s k = Z.of_nat (k + i) /\ i <= p /\
            take (length s) (drop i text) = s.
Proof.
  revert k p. induction text as [|b text IH]; intros k p Hs.
  - rewrite drop_nil, take_nil in Hs. subst s. exists 0. cbn.
    split; [f_equal; lia|]. split; [lia|done].
  - cbn [indexOf_from]. destruct (starts_with (b :: text) s) eqn:Hsw.
    + exists 0. split; [f_equal; lia|]. split; [lia|].
      by apply starts_with_spec.
    + destruct p as [|p].
      { rewrite drop_0 in Hs. apply starts_with_spec in Hs. congruence. }
      destruct (IH (Datatypes.S k) p Hs) as (i & Hi & Hip & Hti).
      exists (Datatypes.S i). split; [rewrite Hi; f_equal; lia|].
      split; [lia|done].
Qed.

(** [indexOf] finds a string that occurs in the text, at its first
    occurrence. *)
Lemma indexOf_occurs (text : jsstring) p e :
  p <= e <= length text ->
  exists i, indexOf text (substring text p e) = Z.of_nat i /\ i <= p /\
            substring text i (i + (e - p)) = substring text p e.
Proof.
  intros Hpe. unfold indexOf.
  assert (Hlen : length (substring text p e) = e - p).
  { unfold substring. rewrite length_take, length_drop. lia. }
  destruct (indexOf_from_spec text (substring text p e) 0 p) as (i & Hi & Hip & Ht).
  { rewrite Hlen. done. }
  exists i. split; [done|]. split; [done|].
  rewrite Hlen in Ht. unfold substring at 1.
  replace (i + (e - p) - i) with (e - p) by lia. done.
Qed.

(** ** The normalizer *)

Section Normalizer.

Lemma special_character_allows (S : jsstring) j c :
  S !! j = Some c ->
  no_match_at S (literal special_character true false) j ->
  allow_listed c = true.
Proof.
  intros Hj. unfold no_match_at. cbn. unfold CharacterSetMatcher.
  rewrite Hj. destruct (class_has _ _ c) eqn:Hc; [|done]. intros _.
  unfold class_has, canonical_class in Hc. cbn -[is_word is_space N.eqb] in Hc.
  unfold allow_listed.
  destruct (is_word c); [done|]. destruct (is_space c); [done|].
  cbn -[N.eqb] in Hc. cbn [orb]. apply bool_decide_eq_true.
  change (js ".,!?'-") with [46; 44; 33; 63; 39; 45]%N.
  rewrite !orb_true_iff, !N.eqb_eq in Hc. rewrite !elem_of_cons.
  decompose [or] Hc; subst; try done; auto 10.
Qed.

Lemma special_character_span (S : jsstring) p e :
  matches_at S (literal special_character true false) p e -> e = Datatypes.S p.
Proof.
  unfold matches_at. cbn. unfold CharacterSetMatcher.
  destruct (S !! p); [|done]. destruct (xorb _ _); [|done]. congruence.
Qed.

Lemma splice_allow_listed (S : jsstring) spans i :
  spans_from S (literal special_character true false) i spans ->
  Forall (fun c => allow_listed c = true) (splice S [] spans i).
Proof.
  revert i. induction spans as [|[p e] rest IH]; intros i; cbn.
  - intros Hnone. apply Forall_lookup. intros k c Hk.
    rewrite lookup_drop in Hk.
    apply (special_character_allows S (i + k)); [done|].
    apply Hnone. apply lookup_lt_Some in Hk. lia.
  - intros (Hp & He & Hm & Hnone & Hrest).
    apply special_character_span in Hm as ->.
    replace (Datatypes.S p =? p) with false in Hrest
      by (symmetry; apply Nat.eqb_neq; lia).
    replace (i <=? p) with true by (symmetry; apply Nat.leb_le; lia).
    apply Forall_app. split; [|by apply IH].
    apply Forall_lookup. intros k c Hk. unfold substring in Hk.
    apply lookup_take_Some in Hk as [Hk Hlt]. rewrite lookup_drop in Hk.
    apply (special_character_allows S (i + k)); [done|].
    apply Hnone. lia.
Qed.

(** The last step of the normalizer leaves allow-listed characters only,
    whatever the steps before it produced. *)
Lemma preprocessText_with_allow_listed lower (x : jsstring) :
  Forall (fun c => allow_listed c = true) (preprocessText_with lower x).
Proof.
  unfold preprocessText_with, String_replace.
  set (processed := trim _).
  pose proof (match_results_global processed
                (literal special_character true false) eq_refl) as [Hs _].
  destruct (match_results _ processed) as [spans R']. cbn in *.
  by apply splice_allow_listed.
Qed.

End Normalizer.

(** C3: every character of the normalizer's output is on the allow-list:
    a word character, white space, or one of the punctuation characters
    . , ! ? ' - *)
Theorem preprocessText_allow_listed (x : jsstring) :
  Forall (fun c => allow_listed c = true) (preprocessText x).
Proof. apply preprocessText_with_allow_listed. Qed.

(** C2: the normalizer applied twice differs from the normalizer applied
    once on the input "a @ b": the first pass removes the "@" after the
    white space has been collapsed and leaves two spaces, which the second
    pass collapses. *)
Theorem preprocessText_twice_differs :
  preprocessText (js "a @ b") = js "a  b" /\
  preprocessText (preprocessText (js "a @ b")) = js "a b" /\
  preprocessText (preprocessText (js "a @ b")) <> preprocessText (js "a @ b").
Proof. repeat split; vm_compute; done. Qed.

(** ** The entity extractor *)

Section Extractor.
Local Open Scope string_scope.
Local Open Scope list_scope.

Lemma push_matches_valid entityType (text : jsstring) ms :
  Forall (fun m => exists p e, p <= e <= length text /\ m = substring text p e) ms ->
  Forall (valid_offsets text) (push_matches entityType text ms).
Proof.
  intros Hms. unfold push_matches. rewrite Forall_fmap.
  eapply Forall_impl; [exact Hms|].
  intros m (p & e & Hpe & ->). unfold valid_offsets, compose. cbn.
  destruct (indexOf_occurs text p e Hpe) as (i & Hi & Hip & Hsub).
  assert (Hlen : length (substring text p e) = e - p).
  { unfold substring. rewrite length_take, length_drop. lia. }
  rewrite Hi, Hlen. split; [lia|]. split; [lia|].
  rewrite Nat2Z.id. replace (Z.to_nat (Z.of_nat i + Z.of_nat (e - p)))
    with (i + (e - p)) by lia.
  done.
Qed.

Lemma extractentities_in_valid table (text : jsstring) :
  Forall (valid_offsets text) (extractentities_in table text).1.
Proof.
  induction table as [|[entityType entityConfig] rest IH]; cbn; [done|].
  pose proof (String_match_substrings text (regex entityConfig)) as Hms.
  destruct (String_match text (regex entityConfig)) as [matches R'].
  destruct (extractentities_in rest text) as [more rest']. cbn in *.
  apply Forall_app. split; [|done].
  destruct matches as [ms|]; [|done].
  apply push_matches_valid. by apply Hms.
Qed.

(** One entity per match, type by type in the order of the table; the
    value is the matched substring and the offsets are those of its first
    occurrence in the text. *)
Lemma extractentities_in_per_match table (text : jsstring) :
  (extractentities_in table text).1 =
  entry ← table;
  push_matches entry.1 text
    ((fun span => substring text span.1 span.2) <$>
       (match_results (regex entry.2) text).1).
Proof.
  induction table as [|[entityType entityConfig] rest IH]; cbn; [done|].
  unfold String_match.
  destruct (match_results (regex entityConfig) text) as [spans R'].
  destruct (extractentities_in rest text) as [more rest']. cbn in *.
  rewrite IH. by destruct spans.
Qed.

Lemma String_match_lastIndex (text : jsstring) R1 R2 :
  same_regexp R1 R2 ->
  (String_match text R1).1 = (String_match text R2).1 /\
  same_regexp R1 (String_match text R2).2.
Proof.
  intros Hsame.
  destruct (match_results_lastIndex text R1 R2 Hsame) as [Hspans HR].
  unfold String_match.
  destruct (match_results R1 text) as [s1 R1'],
           (match_results R2 text) as [s2 R2']. cbn in *. subst s2.
  destruct s1; done.
Qed.

Lemma extractentities_in_same t1 t2 (text : jsstring) :
  same_table t1 t2 ->
  (extractentities_in t1 text).1 = (extractentities_in t2 text).1 /\
  same_table t1 (extractentities_in t2 text).2.
Proof.
  induction 1 as [|[n1 c1] [n2 c2] t1 t2 [Hn HR] _ [IH1 IH2]]; cbn;
    [split; [done|constructor]|].
  cbn in Hn, HR. subst n2.
  destruct (String_match_lastIndex text _ _ HR) as [Hm HR'].
  destruct (String_match text (regex c1)) as [m1 R1'],
           (String_match text (regex c2)) as [m2 R2'].
  destruct (extractentities_in t1 text) as [more1 rest1],
           (extractentities_in t2 text) as [more2 rest2].
  cbn in *. subst. split; [done|]. by constructor.
Qed.

Lemma same_table_entityTypes : same_table entityTypes entityTypes.
Proof. repeat constructor. Qed.

Lemma foldl_same history table :
  same_table entityTypes table ->
  same_table entityTypes
    (foldl (fun table text => (extractentities_in table text).2) table history).
Proof.
  revert table. induction history as [|text history IH]; intros table Hsame;
    cbn; [done|].
  apply IH. by apply extractentities_in_same.
Qed.

Lemma state_after_same history : same_table entityTypes (state_after history).
Proof. apply foldl_same, same_table_entityTypes. Qed.

End Extractor.

(** The matcher on the table's own examples: the time pattern ignores
    case, a number directly followed by letters is not a number, and the
    parenthesised phone example is not found as a phone number, because
    there is no word boundary before an opening parenthesis that follows
    the start of the text or a space. *)
Example extractentities_time_example :
  extractentities (js "2:30pm") =
    [ {| type := "time"; value := js "2:30pm"; start := 0; end_ := 6 |};
      {| type := "number"; value := js "2"; start := 0; end_ := 1 |} ].
Proof. vm_compute. done. Qed.

Example extractentities_phone_example :
  type <$> extractentities (js "(123) 456-7890") =
    ["number"; "number"; "number"]%string.
Proof. vm_compute. done. Qed.

(** C9: every entity that the extractor returns for a text has valid
    offsets into it: [0 <= start <= end <= length], and the substring from
    [start] to [end] is the entity's value.  This holds for every table of
    patterns and every state of its RegExp objects. *)
Theorem extractentities_valid_offsets table (text : jsstring) (e : Entity) :
  e ∈ (extractentities_in table text).1 ->
  (0 <= start e <= end_ e)%Z /\ (end_ e <= Z.of_nat (length text))%Z /\
  substring text (Z.to_nat (start e)) (Z.to_nat (end_ e)) = value e.
Proof.
  intros He.
  by apply (proj1 (Forall_forall _ _) (extractentities_in_valid table text)).
Qed.

Lemma extractentities_valid_offsets_witness :
  (0 <= 12 <= 28)%Z /\
  (28 <= Z.of_nat (length (js "My email is john@example.com")))%Z /\
  substring (js "My email is john@example.com") (Z.to_nat 12) (Z.to_nat 28) =
    js "john@example.com".
Proof.
  apply (extractentities_valid_offsets entityTypes
           (js "My email is john@example.com")
           {| type := "email"; value := js "john@example.com";
              start := 12; end_ := 28 |}).
  vm_compute. constructor.
Defined.

(** C5: extraction is deterministic.  The patterns are objects shared by
    all calls and a call writes their [lastIndex]; whatever calls came
    before, two runs on the same text return the same entities with the
    same offsets. *)
Theorem extractentities_deterministic (history1 history2 : list jsstring)
    (text : jsstring) :
  (extractentities_in (state_after history1) text).1 =
  (extractentities_in (state_after history2) text).1.
Proof.
  destruct (extractentities_in_same _ _ text (state_after_same history1)) as [<- _].
  destruct (extractentities_in_same _ _ text (state_after_same history2)) as [<- _].
  done.
Qed.

(** C4: on the text "5 5" the number pattern matches twice, at 0..1 and
    at 2..3, and the extractor returns one entity per match in order; both
    carry the offsets 0 and 1 of the first occurrence of "5", because the
    offsets are looked up with [indexOf] on the matched value. *)
Theorem extractentities_repeated_value :
  (match_results (literal number_regex true false) (js "5 5")).1 = [(0, 1); (2, 3)] /\
  extractentities (js "5 5") =
    [ {| type := "number"; value := js "5"; start := 0; end_ := 1 |};
      {| type := "number"; value := js "5"; start := 0; end_ := 1 |} ].
Proof. split; vm_compute; done. Qed.

(** C1, as the code has it: the extractor finds the address in the raw
    text, at 12..28; the normalizer removes the "@", so nothing is found
    in the normalized text. *)
Theorem extractentities_email_in_raw_text :
  extractentities (js "My email is john@example.com") =
    [ {| type := "email"; value := js "john@example.com";
         start := 12; end_ := 28 |} ] /\
  substring (js "My email is john@example.com") 12 28 = js "john@example.com" /\
  preprocessText (js "My email is john@example.com") =
    js "my email is johnexample.com" /\
  extractentities (preprocessText (js "My email is john@example.com")) = [].
Proof. repeat split; vm_compute; done. Qed.

Lemma pipeline_finds_no_email :
  ~ exists e,
      e ∈ extractentities (preprocessText (js "My email is john@example.com")) /\
      type e = "email"%string /\ value e = js "john@example.com".
Proof.
  intros (e & He & _).
  assert (Hnone : extractentities (preprocessText (js "My email is john@example.com")) = [])
    by (vm_compute; done).
  rewrite Hnone in He. by apply elem_of_nil in He.
Qed.

(** A call leaves the table of patterns as the module created it: every
    [lastIndex] is back at 0 when [match] returns. *)
Lemma extractentities_in_restores (text : jsstring) :
  (extractentities_in entityTypes text).2 = entityTypes.
Proof.
  assert (Hone : forall r i,
             (String_match text (literal r true i)).2 = literal r true i).
  { intros r i. unfold String_match.
    pose proof (match_results_global text (literal r true i) eq_refl) as [_ HR].
    destruct (match_results (literal r true i) text) as [spans R'].
    cbn in HR. subst R'. by destruct spans. }
  unfold entityTypes. cbn [extractentities_in regex examples].
  repeat match goal with
  | |- context [String_match text (literal ?r true ?i)] =>
      let H := fresh in
      pose proof (Hone r i) as H;
      destruct (String_match text (literal r true i)) as [? ?];
      cbn in H; subst
  end.
  done.
Qed.

(** ** Sentiment *)

Section SentimentFacts.
Local Open Scope Q_scope.
Variable analyze : jsstring -> Analysis.
Variable threshold : Q.

(** The cascade of the two tests, for any threshold: the first test wins
    where both hold. *)
Lemma label_cascade (text : jsstring) :
  let r := analyzeSentiment analyze threshold text in
  (label r = "positive"%string <-> threshold < score r) /\
  (label r = "negative"%string <-> score r < - threshold /\ ~ threshold < score r) /\
  (label r = "neutral"%string <-> ~ threshold < score r /\ ~ score r < - threshold).
Proof.
  cbn. destruct (Qlt_le_dec threshold (result_score (analyze text))) as [Hp|Hp];
    [|destruct (Qlt_le_dec (result_score (analyze text)) (- threshold)) as [Hn|Hn]].
  - repeat split; try done; tauto.
  - apply Qle_not_lt in Hp. repeat split; try done; tauto.
  - apply Qle_not_lt in Hp, Hn. repeat split; try done; tauto.
Qed.

End SentimentFacts.

(** C6, as the code has it: for a threshold that is not negative (the
    default is 0.5) the label is "positive" exactly when the score exceeds
    the threshold, "negative" exactly when the score is below the negated
    threshold, and "neutral" otherwise. *)
Theorem analyzeSentiment_label_nonnegative_threshold
    (analyze : jsstring -> Analysis) (threshold : Q) (text : jsstring) :
  (0 <= threshold)%Q ->
  (label (analyzeSentiment analyze threshold text) = "positive"%string <->
     (threshold < score (analyzeSentiment analyze threshold text))%Q) /\
  (label (analyzeSentiment analyze threshold text) = "negative"%string <->
     (score (analyzeSentiment analyze threshold text) < - threshold)%Q) /\
  (label (analyzeSentiment analyze threshold text) = "neutral"%string <->
     ~ (threshold < score (analyzeSentiment analyze threshold text))%Q /\
     ~ (score (analyzeSentiment analyze threshold text) < - threshold)%Q).
Proof.
  intros Hthreshold.
  destruct (label_cascade analyze threshold text) as (Hp & Hn & Hz).
  split; [done|]. split; [|done].
  rewrite Hn. split; [tauto|]. intros Hlt. split; [done|].
  apply Qle_not_lt. apply Qlt_le_weak in Hlt.
  eapply Qle_trans; [exact Hlt|].
  eapply Qle_trans; [|exact Hthreshold].
  apply (Qopp_le_compat 0 threshold Hthreshold).
Qed.

Lemma analyzeSentiment_label_nonnegative_threshold_witness :
  (0 <= default_threshold)%Q /\
  (label (analyzeSentiment (analyze_spec sample_lexicon words)
            default_threshold (js "good day")) = "positive"%string <->
   (default_threshold <
      score (analyzeSentiment (analyze_spec sample_lexicon words)
               default_threshold (js "good day")))%Q).
Proof.
  assert (H : (0 <= default_threshold)%Q) by (vm_compute; discriminate).
  split; [exact H|].
  exact (proj1 (analyzeSentiment_label_nonnegative_threshold
                  (analyze_spec sample_lexicon words) default_threshold
                  (js "good day") H)).
Defined.

(** C6 as stated fails for a negative threshold: with the threshold -1
    and the score 0 the score is below the negated threshold 1, and the
    label is "positive". *)
Lemma negative_threshold_label :
  ~ (label (analyzeSentiment (analyze_spec sample_lexicon words) (-1)%Q (js "day"))
       = "negative"%string <->
     (score (analyzeSentiment (analyze_spec sample_lexicon words) (-1)%Q (js "day"))
        < - (-1))%Q).
Proof.
  intros [_ H].
  assert (Hlabel : label (analyzeSentiment (analyze_spec sample_lexicon words)
                            (-1)%Q (js "day")) = "positive"%string)
    by (vm_compute; done).
  rewrite Hlabel in H. discriminate H. vm_compute. done.
Qed.

Section ScorerFacts.
Variable lexicon : gmap string Z.

Lemma sum_polarity_app toks token :
  sum_polarity lexicon (toks ++ [token]) =
  (sum_polarity lexicon toks + polarity lexicon token)%Z.
Proof.
  induction toks as [|t toks IH]; cbn; [lia|].
  unfold sum_polarity in IH. rewrite IH. lia.
Qed.

End ScorerFacts.

(** C7: the score is monotonic in lexicon polarity.  When the tokens of
    [text'] are those of [text] followed by one more token, a token of
    strictly positive polarity does not decrease the score and a token of
    strictly negative polarity does not increase it. *)
Theorem analyzeSentiment_monotonic (lexicon : gmap string Z)
    (tokenize : jsstring -> list string) (threshold : Q)
    (text text' : jsstring) (token : string) :
  tokenize text' = tokenize text ++ [token] ->
  ((0 < polarity lexicon token)%Z ->
   (score (analyzeSentiment (analyze_spec lexicon tokenize) threshold text) <=
    score (analyzeSentiment (analyze_spec lexicon tokenize) threshold text'))%Q) /\
  ((polarity lexicon token < 0)%Z ->
   (score (analyzeSentiment (analyze_spec lexicon tokenize) threshold text') <=
    score (analyzeSentiment (analyze_spec lexicon tokenize) threshold text))%Q).
Proof.
  intros Htokens. cbn. rewrite Htokens, sum_polarity_app.
  rewrite <- !Zle_Qle. split; lia.
Qed.

Lemma analyzeSentiment_monotonic_witness :
  (score (analyzeSentiment (analyze_spec sample_lexicon words)
            default_threshold (js "not")) <=
   score (analyzeSentiment (analyze_spec sample_lexicon words)
            default_threshold (js "not good")))%Q /\
  (score (analyzeSentiment (analyze_spec sample_lexicon words)
            default_threshold (js "not bad")) <=
   score (analyzeSentiment (analyze_spec sample_lexicon words)
            default_threshold (js "not")))%Q.
Proof.
  split.
  - apply (analyzeSentiment_monotonic sample_lexicon words default_threshold
             (js "not") (js "not good") "good"); [reflexivity|].
    vm_compute. reflexivity.
  - apply (analyzeSentiment_monotonic sample_lexicon words default_threshold
             (js "not") (js "not bad") "bad"); [reflexivity|].
    vm_compute. reflexivity.
Defined.

(** ** Classifier initialization *)

Section ManagerFacts.
Local Open Scope string_scope.
Local Open Scope list_scope.

Lemma documents_add_intent language intentName utterances answers_ m :
  documents (add_intent language intentName utterances answers_ m) =
  documents m ++ ((fun u => (language, u, intentName)) <$> utterances).
Proof.
  unfold add_intent.
  assert (Hanswers : forall l m',
             documents (foldl (fun m response =>
                                 addAnswer language intentName response m) m' l)
             = documents m').
  { induction l as [|a l IH]; intros m'; cbn; [done|]. by rewrite IH. }
  rewrite Hanswers. revert m.
  induction utterances as [|u us IH]; intros m; cbn; [by rewrite app_nil_r|].
  rewrite IH. cbn. by rewrite <- app_assoc.
Qed.

Lemma answers_add_intent language intentName utterances answers_ m :
  answers (add_intent language intentName utterances answers_ m) =
  answers m ++ ((fun a => (language, intentName, a)) <$> answers_).
Proof.
  unfold add_intent.
  assert (Hdocs : forall l m',
             answers (foldl (fun m utterance =>
                               addDocument language utterance intentName m) m' l)
             = answers m').
  { induction l as [|a l IH]; intros m'; cbn; [done|]. by rewrite IH. }
  generalize (foldl (fun m utterance => addDocument language utterance intentName m)
                m utterances) (Hdocs utterances m).
  intros m' <-. revert m'.
  induction answers_ as [|a l IH]; intros m'; cbn; [by rewrite app_nil_r|].
  rewrite IH. cbn. by rewrite <- app_assoc.
Qed.

(** What the [catch] branch adds to a fresh manager. *)
Lemma add_default_intents_spec language :
  documents (add_default_intents language createNlpManager) = default_documents language /\
  answers (add_default_intents language createNlpManager) = default_answers language /\
  namedEntityTexts (add_default_intents language createNlpManager) = [] /\
  trained (add_default_intents language createNlpManager) = false.
Proof. repeat split. Qed.

(** The identifier [path] is not bound in the module as it stands, and
    the function throws before it reads any file. *)
Lemma InitializeNlpManager_without_path w :
  path w = None ->
  (InitializeNlpManager w).1 = Thrown "path is not defined".
Proof. intros H. unfold InitializeNlpManager. by rewrite H. Qed.

End ManagerFacts.

(** C8: the code does not do what the claim says.  Started where no
    training file can be read, initialization does not reach the default
    intents and does not complete: the identifier [path] is bound to
    nothing, so the first statement of the function throws, and the
    function logs that error and throws it again.  The built-in intents
    of the [catch] branch are six, greeting, goodbye, help, question,
    compliment and complaint; none is named fallback. *)
Theorem InitializeNlpManager_fails_without_corpus :
  intents_json missing_corpus_world = None /\
  utterances_json missing_corpus_world = None /\
  InitializeNlpManager missing_corpus_world =
    (Thrown "path is not defined",
     [ {| level := error; message := "Failed to initialize NLP manager:";
          detail := Some "path is not defined" |} ])%string /\
  intentCategories.*1 =
    ["greeting"; "goodbye"; "help"; "question"; "compliment"; "complaint"]%string.
Proof. repeat split. Qed.

(** ** The Redis retry policy *)

(** C10: for a retry attempt number [n >= 0] the delay is the minimum of
    [n * 100] and 2000 milliseconds, and so lies between 0 and 2000. *)
Theorem retryStrategy_delay (n : Z) :
  (0 <= n)%Z ->
  (retryStrategy n).1 = Z.min (n * 100) 2000 /\
  (0 <= (retryStrategy n).1 <= 2000)%Z /\
  (n <= 20 -> (retryStrategy n).1 = n * 100)%Z /\
  (20 <= n -> (retryStrategy n).1 = 2000)%Z.
Proof. intros Hn. cbn. lia. Qed.

Lemma retryStrategy_delay_witness :
  (0 <= 25)%Z /\ (retryStrategy 25).1 = Z.min (25 * 100) 2000 /\
  (0 <= (retryStrategy 25).1 <= 2000)%Z.
Proof.
  assert (H : (0 <= 25)%Z) by lia.
  split; [exact H|].
  destruct (retryStrategy_delay 25 H) as (Hmin & Hbound & _).
  split; [exact Hmin|exact Hbound].
Defined.

(** * Further properties *)

(** ** The normalizer as three plain steps *)

Section WhitespaceRuns.
Variable S : jsstring.

Lemma class_has_space c : class_has false [CSpace] c = is_space c.
Proof. unfold class_has, canonical_class. cbn. by rewrite !orb_false_r. Qed.

Lemma ws_run_drop (l : jsstring) : ws_run (drop (ws_run l) l) = 0.
Proof.
  induction l as [|c l IH]; cbn; [done|].
  destruct (is_space c) eqn:E; cbn; [done|]. by rewrite E.
Qed.

(** The greedy loop of the pattern stops at the end of the run. *)
Lemma RepeatMatcher_space_run fuel x :
  x <= length S -> length S - x < fuel ->
  RepeatMatcher fuel (CharacterSetMatcher S false false [CSpace]) 0 None true x Some
  = Some (x + ws_run (drop x S)).
Proof.
  revert x. induction fuel as [|fuel IH]; intros x Hx Hfuel; [lia|].
  cbn [RepeatMatcher]. cbn [Nat.eqb negb andb]. unfold CharacterSetMatcher at 1.
  destruct (S !! x) as [c|] eqn:Hc.
  - rewrite (drop_S _ _ _ Hc). cbn [ws_run xorb]. rewrite class_has_space.
    destruct (is_space c); [|f_equal; lia].
    replace (Datatypes.S x =? x) with false by (symmetry; apply Nat.eqb_neq; lia).
    apply lookup_lt_Some in Hc.
    cbn [fmap option_fmap option_map]. rewrite IH by lia. f_equal. lia.
  - apply lookup_ge_None in Hc. rewrite drop_ge by lia. cbn. f_equal. lia.
Qed.

Lemma whitespace_run_at x :
  x <= length S ->
  compile S false whitespace_run x Some =
  match S !! x with
  | Some c => if is_space c then Some (x + ws_run (drop x S)) else None
  | None => None
  end.
Proof.
  intros Hx. unfold whitespace_run, Pattern.plus, Pattern.space, Pattern.cls.
  cbn [compile RepeatMatcher Nat.eqb negb andb].
  unfold CharacterSetMatcher at 1.
  destruct (S !! x) as [c|] eqn:Hc; [|done].
  cbn [xorb]. rewrite class_has_space. destruct (is_space c) eqn:Hsp; [|done].
  pose proof (lookup_lt_Some _ _ _ Hc).
  cbn [fmap option_fmap option_map Init.Nat.pred].
  rewrite RepeatMatcher_space_run by (unfold InputLength; lia).
  rewrite (drop_S _ _ _ Hc). cbn [ws_run]. rewrite Hsp. f_equal. lia.
Qed.

Lemma collapse_nonspace (b : bool) (g l : jsstring) :
  Forall (fun c => is_space c = false) g ->
  collapse_from b (g ++ l) = g ++ collapse_from (if g is [] then b else false) l.
Proof.
  intros Hg. revert b. induction Hg as [|c g Hc Hg IH]; intros b; cbn; [done|].
  rewrite Hc, IH. by destruct g.
Qed.

Lemma collapse_true_skip (l : jsstring) :
  collapse_from true l = collapse_from true (drop (ws_run l) l).
Proof.
  induction l as [|c l IH]; cbn; [done|].
  destruct (is_space c) eqn:E; cbn; [done|]. by rewrite E.
Qed.

Lemma collapse_false_run (l : jsstring) :
  0 < ws_run l ->
  collapse_from false l = 0x20%N :: collapse_from true (drop (ws_run l) l).
Proof.
  destruct l as [|c l]; cbn; [lia|].
  destruct (is_space c); [|lia]. intros _. cbn. by rewrite <- collapse_true_skip.
Qed.

Lemma whitespace_run_no_match j c :
  S !! j = Some c ->
  no_match_at S (literal whitespace_run true false) j -> is_space c = false.
Proof.
  intros Hj. unfold no_match_at. cbn [source ignoreCase literal].
  rewrite whitespace_run_at by (apply lookup_lt_Some in Hj; lia).
  rewrite Hj. by destruct (is_space c).
Qed.

Lemma whitespace_run_match p e :
  p <= length S ->
  matches_at S (literal whitespace_run true false) p e ->
  0 < ws_run (drop p S) /\ e = p + ws_run (drop p S).
Proof.
  intros Hp. unfold matches_at. cbn [source ignoreCase literal].
  rewrite whitespace_run_at by done.
  destruct (S !! p) as [c|] eqn:Hc; [|done].
  destruct (is_space c) eqn:Hsp; [|done]. intros [= <-].
  rewrite (drop_S _ _ _ Hc). cbn. rewrite Hsp. split; [lia|done].
Qed.

(** Replacing the matches of the white space pattern by a space is
    collapsing the runs. *)
Lemma splice_collapse spans i b :
  i <= length S ->
  spans_from S (literal whitespace_run true false) i spans ->
  b = false \/ ws_run (drop i S) = 0 ->
  splice S (js " ") spans i = collapse_from b (drop i S).
Proof.
  revert i b. induction spans as [|[p e] rest IH]; intros i b Hi Hspans Hb.
  - cbn. cbn in Hspans.
    assert (Hall : Forall (fun c => is_space c = false) (drop i S)).
    { apply Forall_lookup. intros k c Hk. rewrite lookup_drop in Hk.
      apply (whitespace_run_no_match (i + k)); [done|].
      apply Hspans. apply lookup_lt_Some in Hk. lia. }
    rewrite <- (app_nil_r (drop i S)) at 2.
    rewrite collapse_nonspace by done. cbn. by rewrite app_nil_r.
  - destruct Hspans as (Hp & He & Hm & Hnone & Hrest).
    apply whitespace_run_match in Hm as [Hrun ->]; [|lia].
    replace (p + ws_run (drop p S) =? p) with false in Hrest
      by (symmetry; apply Nat.eqb_neq; lia).
    cbn [splice]. replace (i <=? p) with true by (symmetry; apply Nat.leb_le; lia).
    rewrite (IH _ true); [|lia|done|].
    2:{ right. rewrite <- drop_drop. apply ws_run_drop. }
    assert (Hgap : Forall (fun c => is_space c = false) (substring S i p)).
    { apply Forall_lookup. intros k c Hk. unfold substring in Hk.
      apply lookup_take_Some in Hk as [Hk Hlt]. rewrite lookup_drop in Hk.
      apply (whitespace_run_no_match (i + k)); [done|]. apply Hnone. lia. }
    assert (Hsplit : drop i S = substring S i p ++ drop p S).
    { unfold substring. rewrite <- (take_drop (p - i) (drop i S)) at 1.
      f_equal. rewrite drop_drop. f_equal. lia. }
    rewrite Hsplit, collapse_nonspace by done. f_equal.
    rewrite <- drop_drop, <- collapse_true_skip.
    change (js " ") with [0x20%N]. cbn [app].
    destruct (substring S i p) eqn:Hsub.
    + destruct Hb as [->|Hb]; [by rewrite collapse_false_run, <- collapse_true_skip|].
      rewrite Hsplit in Hb. cbn in Hb. lia.
    + by rewrite collapse_false_run, <- collapse_true_skip.
Qed.

Lemma replace_whitespace_run :
  (String_replace S (literal whitespace_run true false) (js " ")).1 =
  collapse_whitespace S.
Proof.
  unfold String_replace.
  pose proof (match_results_global S (literal whitespace_run true false) eq_refl)
    as [Hs _].
  destruct (match_results _ S) as [spans R']. cbn [fst snd] in *.
  rewrite (splice_collapse spans 0 false); [by rewrite drop_0|lia|done|by left].
Qed.

Lemma class_has_allow_listed c :
  class_has false
    [CWord; CSpace; Pattern.one "."; Pattern.one ","; Pattern.one "!";
     Pattern.one "?"; Pattern.one "'"; Pattern.one "-"] c = allow_listed c.
Proof.
  unfold class_has, canonical_class, allow_listed.
  cbn -[is_word is_space N.eqb]. rewrite !orb_false_r.
  destruct (is_word c); [done|]. destruct (is_space c); [done|]. cbn [orb].
  change (js ".,!?'-") with [46; 44; 33; 63; 39; 45]%N.
  apply eq_true_iff_eq. rewrite bool_decide_eq_true, !orb_true_iff, !N.eqb_eq.
  rewrite !elem_of_cons, elem_of_nil. intuition congruence.
Qed.

Lemma special_character_match p e :
  matches_at S (literal special_character true false) p e ->
  exists c, S !! p = Some c /\ allow_listed c = false /\ e = Datatypes.S p.
Proof.
  unfold matches_at. cbn [source ignoreCase literal special_character Pattern.ncls compile].
  unfold CharacterSetMatcher. destruct (S !! p) as [c|]; [|done].
  rewrite class_has_allow_listed. destruct (allow_listed c) eqn:E; cbn; [done|].
  intros [= <-]. by exists c.
Qed.

(** Replacing the matches of the special character pattern by nothing is
    keeping the allow-listed characters. *)
Lemma splice_filter spans i :
  spans_from S (literal special_character true false) i spans ->
  splice S [] spans i = List.filter allow_listed (drop i S).
Proof.
  revert i. induction spans as [|[p e] rest IH]; intros i Hspans.
  - cbn. cbn in Hspans. symmetry. apply forallb_filter_id.
    apply forallb_forall. intros c Hc. apply list_elem_of_In in Hc.
    apply list_elem_of_lookup in Hc as [k Hk]. rewrite lookup_drop in Hk.
    apply (special_character_allows S (i + k)); [done|].
    apply Hspans. apply lookup_lt_Some in Hk. lia.
  - destruct Hspans as (Hp & He & Hm & Hnone & Hrest).
    apply special_character_match in Hm as (c & Hc & Hnot & ->).
    replace (Datatypes.S p =? p) with false in Hrest
      by (symmetry; apply Nat.eqb_neq; lia).
    cbn [splice]. replace (i <=? p) with true by (symmetry; apply Nat.leb_le; lia).
    rewrite (IH _ Hrest). cbn [app].
    assert (Hsplit : drop i S = substring S i p ++ c :: drop (Datatypes.S p) S).
    { unfold substring. rewrite <- (take_drop (p - i) (drop i S)) at 1.
      f_equal. rewrite drop_drop. replace (i + (p - i)) with p by lia.
      by apply drop_S. }
    rewrite Hsplit, List.filter_app. cbn [List.filter]. rewrite Hnot. f_equal.
    symmetry. apply forallb_filter_id. apply forallb_forall. intros c' Hc'.
    apply list_elem_of_In in Hc'. apply list_elem_of_lookup in Hc' as [k Hk].
    unfold substring in Hk. apply lookup_take_Some in Hk as [Hk Hlt].
    rewrite lookup_drop in Hk.
    apply (special_character_allows S (i + k)); [done|]. apply Hnone. lia.
Qed.

Lemma replace_special_character :
  (String_replace S (literal special_character true false) []).1 =
  List.filter allow_listed S.
Proof.
  unfold String_replace.
  pose proof (match_results_global S (literal special_character true false) eq_refl)
    as [Hs _].
  destruct (match_results _ S) as [spans R']. cbn [fst snd] in *.
  rewrite (splice_filter spans 0 Hs). by rewrite drop_0.
Qed.

End WhitespaceRuns.

(** X1: the normalizer is the composition of three plain steps on the
    lower-cased text: collapse every run of white space to one space, trim,
    keep the allow-listed characters.  This holds for any case mapping. *)
Theorem preprocessText_with_steps (lower : jsstring -> jsstring) (x : jsstring) :
  preprocessText_with lower x =
  List.filter allow_listed (trim (collapse_whitespace (lower x))).
Proof.
  unfold preprocessText_with.
  by rewrite replace_special_character, replace_whitespace_run.
Qed.

Lemma preprocessText_steps (x : jsstring) :
  preprocessText x =
  List.filter allow_listed (trim (collapse_whitespace (toLowerCase x))).
Proof.
  unfold preprocessText, preprocessText_with.
  by rewrite replace_special_character, replace_whitespace_run.
Qed.

(** ** Facts about the three steps *)

Section StepFacts.

Lemma in_range_true lo hi c : in_range lo hi c = true <-> (lo <= c <= hi)%N.
Proof. unfold in_range. rewrite andb_true_iff, !N.leb_le. done. Qed.

Lemma in_range_false lo hi c : in_range lo hi c = false <-> (c < lo \/ hi < c)%N.
Proof. unfold in_range. rewrite andb_false_iff, !N.leb_gt. done. Qed.

Lemma lower_unit_not_upper c : is_upper (lower_unit c) = false.
Proof.
  unfold is_upper, lower_unit. apply in_range_false.
  destruct (in_range 65 90 c) eqn:H1.
  { apply in_range_true in H1. lia. }
  apply in_range_false in H1.
  destruct (in_range 192 222 c && negb (c =? 215)%N) eqn:H2; [|lia].
  apply andb_true_iff in H2 as [H2%in_range_true _]. lia.
Qed.

Lemma is_space_cases c :
  is_space c = true ->
  (9 <= c <= 13 \/ c = 32 \/ c = 160 \/ c = 5760 \/ 8192 <= c <= 8202 \/
   c = 8232 \/ c = 8233 \/ c = 8239 \/ c = 8287 \/ c = 12288 \/ c = 65279)%N.
Proof.
  unfold is_space, in_range.
  rewrite !orb_true_iff, !andb_true_iff, !N.leb_le, !N.eqb_eq. lia.
Qed.

Lemma is_word_cases c :
  is_word c = true ->
  (97 <= c <= 122 \/ 65 <= c <= 90 \/ 48 <= c <= 57 \/ c = 95)%N.
Proof.
  unfold is_word, in_range.
  rewrite !orb_true_iff, !andb_true_iff, !N.leb_le, !N.eqb_eq. lia.
Qed.

Lemma allow_listed_cases c :
  allow_listed c = true ->
  is_word c = true \/ is_space c = true \/
  (c = 46 \/ c = 44 \/ c = 33 \/ c = 63 \/ c = 39 \/ c = 45)%N.
Proof.
  unfold allow_listed. rewrite !orb_true_iff, bool_decide_eq_true.
  change (js ".,!?'-") with [46; 44; 33; 63; 39; 45]%N.
  rewrite !elem_of_cons, elem_of_nil. tauto.
Qed.

Lemma lower_unit_fixes c :
  allow_listed c = true -> is_upper c = false -> lower_unit c = c.
Proof.
  intros Ha Hu. unfold lower_unit. fold (is_upper c). rewrite Hu.
  assert (Hout : in_range 192 222 c = false).
  { apply in_range_false. unfold is_upper in Hu. apply in_range_false in Hu.
    apply allow_listed_cases in Ha as [Hw|[Hs|Hp]].
    - apply is_word_cases in Hw. lia.
    - apply is_space_cases in Hs. lia.
    - lia. }
  by rewrite Hout.
Qed.

Lemma lower_unit_space c : is_space c = true -> lower_unit c = c.
Proof.
  intros Hs. apply is_space_cases in Hs. unfold lower_unit.
  assert (H1 : in_range 65 90 c = false) by (apply in_range_false; lia).
  assert (H2 : in_range 192 222 c = false) by (apply in_range_false; lia).
  by rewrite H1, H2.
Qed.

Lemma space_not_upper c : is_space c = true -> is_upper c = false.
Proof.
  intros Hs. apply is_space_cases in Hs. unfold is_upper.
  apply in_range_false. lia.
Qed.

Lemma collapse_from_elem b (l : jsstring) c :
  c ∈ collapse_from b l -> c = 0x20%N \/ (c ∈ l /\ is_space c = false).
Proof.
  revert b. induction l as [|a l IH]; intros b; cbn; [by intros ?%elem_of_nil|].
  destruct (is_space a) eqn:Ha; [destruct b|].
  - intros [?|[? ?]]%IH; [by left|right]. split; [by right|done].
  - intros [->|[?|[? ?]]%IH]%elem_of_cons; [by left|by left|right].
    split; [by right|done].
  - intros [->|[?|[? ?]]%IH]%elem_of_cons; [right|by left|right].
    + split; [by left|done].
    + split; [by right|done].
Qed.

Lemma collapse_from_length b (l : jsstring) :
  length (collapse_from b l) <= length l.
Proof.
  revert b. induction l as [|a l IH]; intros b; cbn; [done|].
  destruct (is_space a); [destruct b|]; cbn;
    repeat match goal with |- context [collapse_from ?b' l] =>
             pose proof (IH b'); generalize dependent (collapse_from b' l); intros
           end; lia.
Qed.

Lemma trimStart_suffix (l : jsstring) :
  exists v, l = v ++ trimStart l /\ Forall (fun c => is_space c = true) v.
Proof.
  induction l as [|a l (v & Hv & Hsp)]; cbn; [by exists []|].
  destruct (is_space a) eqn:Ha.
  - exists (a :: v). cbn. split; [by f_equal|by constructor].
  - by exists [].
Qed.

Lemma trimEnd_prefix (l : jsstring) :
  exists v, l = trimEnd l ++ v /\ Forall (fun c => is_space c = true) v.
Proof.
  destruct (trimStart_suffix (rev l)) as (v & Hv & Hsp).
  exists (rev v). unfold trimEnd. split; [|by apply Forall_rev].
  rewrite <- rev_app_distr, <- Hv. by rewrite rev_involutive.
Qed.

Lemma trim_elem (l : jsstring) c : c ∈ trim l -> c ∈ l.
Proof.
  unfold trim. intros Hc.
  destruct (trimEnd_prefix (trimStart l)) as (v & Hv & _).
  destruct (trimStart_suffix l) as (w & Hw & _).
  rewrite Hw, Hv. set_solver.
Qed.

Lemma trim_length (l : jsstring) : length (trim l) <= length l.
Proof.
  unfold trim.
  destruct (trimEnd_prefix (trimStart l)) as (v & Hv & _).
  destruct (trimStart_suffix l) as (w & Hw & _).
  apply (f_equal length) in Hv, Hw. rewrite length_app in Hv, Hw. lia.
Qed.

Lemma trimStart_spaces (l : jsstring) :
  Forall (fun c => is_space c = true) l -> trimStart l = [].
Proof. induction 1 as [|c l Hc _ IH]; cbn; [done|]. by rewrite Hc. Qed.

Lemma trim_spaces (l : jsstring) :
  Forall (fun c => is_space c = true) l -> trim l = [].
Proof. intros H. unfold trim. by rewrite trimStart_spaces. Qed.

Lemma trimStart_idemp (l : jsstring) : trimStart (trimStart l) = trimStart l.
Proof.
  induction l as [|a l IH]; cbn; [done|].
  destruct (is_space a) eqn:Ha; [done|]. cbn. by rewrite Ha.
Qed.

Lemma trimStart_snoc (l : jsstring) c :
  is_space c = false -> exists w, trimStart (l ++ [c]) = w ++ [c].
Proof.
  intros Hc. induction l as [|a l [w IH]]; cbn.
  - rewrite Hc. by exists [].
  - destruct (is_space a); [by exists w|]. by exists (a :: l).
Qed.

Lemma trimStart_trimEnd (u : jsstring) :
  trimStart u = u -> trimStart (trimEnd u) = trimEnd u.
Proof.
  destruct u as [|c r]; [done|]. cbn [trimStart].
  destruct (is_space c) eqn:Hc.
  - intros Heq. destruct (trimStart_suffix r) as (v & Hv & _).
    apply (f_equal length) in Heq, Hv. rewrite length_app in Hv. cbn in Heq. lia.
  - intros _. unfold trimEnd. cbn [rev].
    destruct (trimStart_snoc (rev r) c Hc) as [w ->].
    rewrite rev_app_distr. cbn. by rewrite Hc.
Qed.

Lemma trim_idemp (l : jsstring) : trim (trim l) = trim l.
Proof.
  unfold trim. rewrite trimStart_trimEnd by apply trimStart_idemp.
  unfold trimEnd. by rewrite rev_involutive, trimStart_idemp.
Qed.

Lemma collapsed_fix b (s : jsstring) :
  collapsed_from b s = true -> collapse_from b s = s.
Proof.
  revert b. induction s as [|c s IH]; intros b; cbn; [done|].
  destruct (is_space c).
  - rewrite !andb_true_iff, N.eqb_eq, negb_true_iff. intros [[-> ->] Hs].
    by rewrite IH.
  - intros Hs. by rewrite IH.
Qed.

Lemma collapse_collapsed b (s : jsstring) :
  collapsed_from b (collapse_from b s) = true.
Proof.
  revert b. induction s as [|c s IH]; intros b; cbn; [done|].
  destruct (is_space c) eqn:Hc; [destruct b|]; cbn; [done| |by rewrite Hc].
  change (is_space 32) with true. cbn. apply IH.
Qed.

Lemma collapsed_weaken (s : jsstring) :
  collapsed_from true s = true -> collapsed_from false s = true.
Proof.
  destruct s as [|c s]; cbn; [done|]. destruct (is_space c); [|done].
  rewrite !andb_true_iff. cbn. intros [[_ [=]] _].
Qed.

Lemma collapsed_trimStart b (s : jsstring) :
  collapsed_from b s = true -> collapsed_from false (trimStart s) = true.
Proof.
  revert b. induction s as [|c s IH]; intros b; cbn; [done|].
  destruct (is_space c) eqn:Hc.
  - rewrite !andb_true_iff. intros [_ Hs]. by apply (IH true).
  - intros Hs. cbn. by rewrite Hc.
Qed.

Lemma collapsed_prefix b (l1 l2 : jsstring) :
  collapsed_from b (l1 ++ l2) = true -> collapsed_from b l1 = true.
Proof.
  revert b. induction l1 as [|c l1 IH]; intros b; cbn; [done|].
  destruct (is_space c).
  - rewrite !andb_true_iff. intros [? ?%IH]. done.
  - apply IH.
Qed.

Lemma collapsed_trim (s : jsstring) :
  collapsed_from false s = true -> collapsed_from false (trim s) = true.
Proof.
  intros Hs%collapsed_trimStart. unfold trim.
  destruct (trimEnd_prefix (trimStart s)) as (v & Hv & _).
  rewrite Hv in Hs. by apply collapsed_prefix in Hs.
Qed.

Lemma filter_allow_listed_id (s : jsstring) :
  Forall (fun c => allow_listed c = true) s -> List.filter allow_listed s = s.
Proof.
  intros Hs. apply forallb_filter_id, forallb_forall. intros c Hc.
  apply list_elem_of_In in Hc. by apply (proj1 (Forall_forall _ _) Hs).
Qed.

Lemma toLowerCase_id (s : jsstring) :
  Forall (fun c => allow_listed c = true) s ->
  Forall (fun c => is_upper c = false) s ->
  toLowerCase s = s.
Proof.
  intros Ha Hu. unfold toLowerCase. induction s as [|c s IH]; [done|].
  apply Forall_cons in Ha as [Ha Ha'], Hu as [Hu Hu']. cbn.
  rewrite lower_unit_fixes by done. f_equal. by apply IH.
Qed.

(** What collapsing and trimming make of a string without capitals and
    without special characters. *)
Lemma trim_collapse_normal (s : jsstring) :
  Forall (fun c => allow_listed c = true) s ->
  Forall (fun c => is_upper c = false) s ->
  normal (trim (collapse_whitespace s)).
Proof.
  intros Ha Hu.
  assert (Helem : forall c, c ∈ trim (collapse_whitespace s) ->
                            c = 0x20%N \/ c ∈ s).
  { intros c Hc%trim_elem%collapse_from_elem. tauto. }
  repeat split.
  - apply Forall_forall. intros c [->|Hc]%Helem; [done|].
    by apply (proj1 (Forall_forall _ _) Ha).
  - apply Forall_forall. intros c [->|Hc]%Helem; [done|].
    by apply (proj1 (Forall_forall _ _) Hu).
  - apply collapsed_trim, collapse_collapsed.
  - apply trim_idemp.
Qed.

(** The characters of the output, whatever the case mapping. *)
Lemma preprocessText_with_chars (lower : jsstring -> jsstring) (x : jsstring) c :
  c ∈ preprocessText_with lower x ->
  allow_listed c = true /\ (is_space c = true -> c = 0x20%N) /\
  (c = 0x20%N \/ c ∈ lower x).
Proof.
  unfold preprocessText_with.
  rewrite replace_special_character, replace_whitespace_run.
  intros Hc%list_elem_of_In%filter_In.
  destruct Hc as [Hc Ha]. split; [done|].
  apply list_elem_of_In, trim_elem, collapse_from_elem in Hc
    as [->|[Hc Hns]]; [by split; [|left]|].
  split; [congruence|by right].
Qed.

Lemma preprocessText_chars (x : jsstring) c :
  c ∈ preprocessText x ->
  allow_listed c = true /\ is_upper c = false /\
  (is_space c = true -> c = 0x20%N).
Proof.
  rewrite preprocessText_steps. intros Hc%list_elem_of_In%filter_In.
  destruct Hc as [Hc Ha]. split; [done|].
  apply list_elem_of_In, trim_elem, collapse_from_elem in Hc
    as [->|[Hc Hns]]; [done|].
  split; [|congruence].
  unfold toLowerCase in Hc. apply list_elem_of_fmap in Hc as (a & -> & _).
  apply lower_unit_not_upper.
Qed.

Lemma preprocessText_clean (x : jsstring) :
  Forall (fun c => allow_listed c = true) (preprocessText x) /\
  Forall (fun c => is_upper c = false) (preprocessText x).
Proof.
  split; apply Forall_forall; intros c Hc;
    apply preprocessText_chars in Hc as (? & ? & ?); done.
Qed.

(** On a string without capitals and without special characters the
    normalizer only collapses and trims, and the result is normal. *)
Lemma preprocessText_of_clean (s : jsstring) :
  Forall (fun c => allow_listed c = true) s ->
  Forall (fun c => is_upper c = false) s ->
  preprocessText s = trim (collapse_whitespace s) /\ normal (preprocessText s).
Proof.
  intros Ha Hu. pose proof (trim_collapse_normal s Ha Hu) as Hn.
  assert (Heq : preprocessText s = trim (collapse_whitespace s)).
  { rewrite preprocessText_steps, toLowerCase_id by done.
    apply filter_allow_listed_id, Hn. }
  split; [done|]. by rewrite Heq.
Qed.

Lemma normal_fixed (s : jsstring) : normal s -> preprocessText s = s.
Proof.
  intros (Ha & Hu & Hc & Ht).
  destruct (preprocessText_of_clean s Ha Hu) as [-> _].
  unfold collapse_whitespace. by rewrite collapsed_fix.
Qed.

End StepFacts.

(** X2: whatever the case mapping of the runtime, the output of the
    normalizer holds allow-listed characters only and no white space
    character other than the space U+0020; and it holds no ASCII capital
    letter whenever the lower-cased text holds none. *)
Theorem preprocessText_lowercase_spaces (lower : jsstring -> jsstring)
    (x : jsstring) :
  Forall (fun c => allow_listed c = true /\ (is_space c = true -> c = 0x20%N))
         (preprocessText_with lower x) /\
  (Forall (fun c => is_upper c = false) (lower x) ->
   Forall (fun c => is_upper c = false) (preprocessText_with lower x)).
Proof.
  split; [|intros Hlower]; apply Forall_forall; intros c Hc;
    apply preprocessText_with_chars in Hc as (Ha & Hs & Hc); [done|].
  destruct Hc as [->|Hc]; [done|].
  by apply (proj1 (Forall_forall _ _) Hlower).
Qed.

Lemma preprocessText_lowercase_spaces_witness :
  Forall (fun c => is_upper c = false) (preprocessText (js "Hello,  World!")).
Proof.
  apply (proj2 (preprocessText_lowercase_spaces toLowerCase (js "Hello,  World!"))).
  vm_compute. repeat constructor.
Defined.

(** X3: whatever the case mapping of the runtime, the normalizer returns
    a text that is not longer than the lower-cased text. *)
Theorem preprocessText_length (lower : jsstring -> jsstring) (x : jsstring) :
  length (preprocessText_with lower x) <= length (lower x).
Proof.
  unfold preprocessText_with.
  rewrite replace_special_character, replace_whitespace_run.
  pose proof (List.filter_length_le allow_listed
                (trim (collapse_whitespace (lower x)))) as H1.
  pose proof (trim_length (collapse_whitespace (lower x))) as H2.
  pose proof (collapse_from_length false (lower x)) as H3.
  unfold collapse_whitespace in *. lia.
Qed.

(** X4: a text that holds white space only (the empty text too)
    normalizes to the empty string. *)
Theorem preprocessText_blank (x : jsstring) :
  Forall (fun c => is_space c = true) x -> preprocessText x = [].
Proof.
  intros Hx. rewrite preprocessText_steps.
  rewrite trim_spaces; [done|].
  apply Forall_forall. intros c [->|[Hc Hns]]%collapse_from_elem; [done|].
  unfold toLowerCase in Hc. apply list_elem_of_fmap in Hc as (a & -> & Ha).
  pose proof (proj1 (Forall_forall _ _) Hx a Ha) as Hsp.
  by rewrite lower_unit_space in Hns |- *.
Qed.

Lemma preprocessText_blank_witness :
  preprocessText (js "    ") = [].
Proof.
  apply preprocessText_blank. vm_compute. repeat constructor.
Defined.

(** X5: the strings that the normalizer leaves unchanged are exactly the
    normal ones: allow-listed characters without capitals, no white space
    but single spaces, none of them leading or trailing. *)
Theorem preprocessText_fixed_points (s : jsstring) :
  preprocessText s = s <-> normal s.
Proof.
  split; [|apply normal_fixed].
  intros Heq. destruct (preprocessText_clean s) as [Ha Hu].
  rewrite Heq in Ha, Hu.
  destruct (preprocessText_of_clean s Ha Hu) as [_ Hn]. by rewrite Heq in Hn.
Qed.

(** X6: a second pass of the normalizer reaches a fixed point: a third
    pass changes nothing. *)
Theorem preprocessText_stable_after_two (x : jsstring) :
  preprocessText (preprocessText (preprocessText x)) =
  preprocessText (preprocessText x).
Proof.
  apply normal_fixed.
  destruct (preprocessText_clean x) as [Ha Hu].
  by destruct (preprocessText_of_clean (preprocessText x) Ha Hu) as [_ Hn].
Qed.

(** X7: the normalizer is idempotent on every text that, once lower-cased,
    holds no character outside the allow-list. *)
Theorem preprocessText_idempotent_without_special (x : jsstring) :
  Forall (fun c => allow_listed c = true) (toLowerCase x) ->
  preprocessText (preprocessText x) = preprocessText x.
Proof.
  intros Ha. apply normal_fixed.
  assert (Hu : Forall (fun c => is_upper c = false) (toLowerCase x)).
  { apply Forall_forall. intros c Hc. unfold toLowerCase in Hc.
    apply list_elem_of_fmap in Hc as (a & -> & _). apply lower_unit_not_upper. }
  assert (Heq : preprocessText x = trim (collapse_whitespace (toLowerCase x))).
  { rewrite preprocessText_steps. apply filter_allow_listed_id.
    apply (trim_collapse_normal _ Ha Hu). }
  rewrite Heq. by apply trim_collapse_normal.
Qed.

Lemma preprocessText_idempotent_without_special_witness :
  preprocessText (preprocessText (js "  Hello,   World!  ")) =
  preprocessText (js "  Hello,   World!  ").
Proof.
  apply preprocessText_idempotent_without_special.
  vm_compute. repeat constructor.
Defined.

(** ** More on the entity extractor *)

Section MatchFacts.
Variable S : jsstring.
Variable ic : bool.

Lemma RepeatMatcher_min_len m k :
  (forall x c z, x <= length S -> m x c = Some z ->
     exists y, x + k <= y <= length S /\ c y = Some z) ->
  forall fuel min max greedy x c z,
    x <= length S ->
    RepeatMatcher fuel m min max greedy x c = Some z ->
    exists y,
      x + (match max with Some bound => Nat.min min bound | None => min end) * k
        <= y <= length S /\ c y = Some z.
Proof.
  intros Hm fuel. induction fuel as [|fuel IH]; intros min max greedy x c z Hx H;
    [done|].
  cbn [RepeatMatcher] in H.
  assert (Hhere : forall z', c x = Some z' -> min = 0 \/ max = Some 0 ->
            exists y,
              x + (match max with Some bound => Nat.min min bound | None => min end) * k
                <= y <= length S /\ c y = Some z').
  { intros z' Hz Hzero. exists x. split; [|done].
    assert (Hz0 : match max with Some bound => Nat.min min bound | None => min end = 0)
      by (destruct Hzero as [->| ->]; [destruct max|]; cbn; lia).
    rewrite Hz0. lia. }
  assert (Hstep : forall z', max <> Some 0 ->
            m x (fun y => if (min =? 0) && (y =? x) then None
                          else RepeatMatcher fuel m (pred min) (pred <$> max) greedy y c)
            = Some z' ->
            exists y,
              x + (match max with Some bound => Nat.min min bound | None => min end) * k
                <= y <= length S /\ c y = Some z').
  { intros z' Hmax Hz. apply Hm in Hz as (y & Hy & Hz); [|done].
    destruct ((min =? 0) && (y =? x)); [done|].
    apply IH in Hz as (y' & Hy' & Hz); [|lia].
    exists y'. split; [|done].
    destruct max as [[|bound]|]; [done| |]; cbn in Hy' |- *;
      destruct min; cbn in Hy' |- *; nia. }
  destruct max as [[|bound]|]; [by apply Hhere; [|right]| |].
  all: destruct (min =? 0) eqn:Hmin; cbn [negb] in H;
    [apply Nat.eqb_eq in Hmin|by apply Hstep].
  all: destruct greedy;
    repeat match type of H with
           | match ?e with Some _ => _ | None => _ end = _ =>
               let E := fresh "E" in destruct e eqn:E; simplify_eq
           end;
    first [ by apply Hstep | by apply Hhere; [|left] ].
Qed.

(** A match is at least [min_len] long. *)
Lemma compile_min_len r x c z :
  x <= length S ->
  compile S ic r x c = Some z ->
  exists y, x + min_len r <= y <= length S /\ c y = Some z.
Proof.
  revert x c z.
  induction r as [|a|invert A| |r1 IH1 r2 IH2|r1 IH1 r2 IH2|r IH min max greedy];
    intros x c z Hx H; cbn [compile min_len] in *.
  - exists x. split; [lia|done].
  - unfold CharacterSetMatcher in H. destruct (S !! x) eqn:E; [|done].
    destruct (xorb _ _); [|done]. apply lookup_lt_Some in E.
    exists (Datatypes.S x). split; [lia|done].
  - unfold CharacterSetMatcher in H. destruct (S !! x) eqn:E; [|done].
    destruct (xorb _ _); [|done]. apply lookup_lt_Some in E.
    exists (Datatypes.S x). split; [lia|done].
  - unfold WordBoundary in H. destruct (xorb _ _); [|done].
    exists x. split; [lia|done].
  - apply IH1 in H as (y & Hy & H); [|done].
    apply IH2 in H as (y' & Hy' & H); [|lia].
    exists y'. split; [lia|done].
  - destruct (compile S ic r1 x c) eqn:E.
    + simplify_eq. apply IH1 in E as (y & Hy & E); [|done].
      exists y. split; [lia|done].
    + apply IH2 in H as (y & Hy & H); [|done]. exists y. split; [lia|done].
  - eapply RepeatMatcher_min_len in H; [exact H| |done].
    intros x' c' z' Hx' H'. by apply IH.
Qed.

(** Where a pattern needs a character with the property [P], a match
    shows that the text holds one. *)
Lemma compile_needs P r :
  Needs ic P r ->
  forall x c z, x <= length S -> compile S ic r x c = Some z ->
  exists a, a ∈ S /\ P a.
Proof.
  induction 1 as [a Ha|invert A Ha|r1 r2 _ IH|r1 r2 _ IH|r1 r2 _ IH1 _ IH2
                  |r min max greedy _ IH Hmin Hmax];
    intros x c z Hx H; cbn [compile] in H.
  - unfold CharacterSetMatcher in H. destruct (S !! x) as [chr|] eqn:E; [|done].
    cbn [xorb] in H. destruct (class_has ic [CChar a] chr) eqn:Hc; [|done].
    exists chr. split; [by eapply list_elem_of_lookup_2|by apply Ha].
  - unfold CharacterSetMatcher in H. destruct (S !! x) as [chr|] eqn:E; [|done].
    destruct (xorb invert (class_has ic A chr)) eqn:Hc; [|done].
    exists chr. split; [by eapply list_elem_of_lookup_2|by apply Ha].
  - by eapply IH.
  - apply (proj1 (compile_well_behaved S ic r1)) in H as (y & Hy & H); [|done].
    eapply IH; [|exact H]. lia.
  - destruct (compile S ic r1 x c) eqn:E; [by eapply IH1|by eapply IH2].
  - cbn [RepeatMatcher] in H.
    destruct max as [[|bound]|]; [done| |];
      (replace (negb (min =? 0)) with true in H
         by (symmetry; apply negb_true_iff, Nat.eqb_neq; lia));
      by eapply IH.
Qed.

Lemma spans_from_matches R i spans :
  spans_from S R i spans ->
  Forall (fun span => matches_at S R span.1 span.2 /\ span.1 <= length S) spans.
Proof.
  revert i. induction spans as [|[p e] rest IH]; intros i; cbn; [done|].
  intros (Hp & He & Hm & _ & Hrest). constructor; [|by eapply IH].
  split; [done|cbn; lia].
Qed.

End MatchFacts.

Section ExtractorFacts.
Local Open Scope string_scope.
Local Open Scope list_scope.

(** Where every entity comes from: a row of the table and one of the
    matches of its pattern. *)
Lemma entity_origin table (text : jsstring) (e : Entity) :
  e ∈ (extractentities_in table text).1 ->
  exists entry span,
    entry ∈ table /\ span ∈ (match_results (regex entry.2) text).1 /\
    e = entity_of entry.1 text (substring text span.1 span.2).
Proof.
  rewrite extractentities_in_per_match.
  intros (entry & He & Hentry)%list_elem_of_bind.
  unfold push_matches in He. rewrite <- list_fmap_compose in He.
  apply list_elem_of_fmap in He as (span & -> & Hspan).
  by exists entry, span.
Qed.

Lemma indexOf_from_least (text s : jsstring) k j :
  (Z.of_nat (k + j) < indexOf_from text s k)%Z ->
  starts_with (drop j text) s = false.
Proof.
  revert k j. induction text as [|b text IH]; intros k j; cbn [indexOf_from].
  - destruct (starts_with [] s); lia.
  - destruct (starts_with (b :: text) s) eqn:Hsw; [lia|].
    destruct j as [|j]; [done|]. intros Hlt. cbn [drop].
    apply (IH (Datatypes.S k)). lia.
Qed.

Lemma state_after_entityTypes history : state_after history = entityTypes.
Proof.
  unfold state_after. induction history as [|text history IH]; cbn [foldl];
    [done|].
  by rewrite extractentities_in_restores.
Qed.

Lemma no_match_without P (text : jsstring) R :
  global R = true ->
  Needs (ignoreCase R) P (source R) ->
  (forall a, a ∈ text -> ~ P a) ->
  (match_results R text).1 = [].
Proof.
  intros Hg Hneeds Hnone.
  destruct (match_results_global text R Hg) as [Hspans _].
  destruct (match_results R text).1 as [|[p e] rest]; [done|].
  destruct Hspans as (_ & He & Hm & _).
  eapply compile_needs in Hm as (a & Ha & HP); [|exact Hneeds|lia].
  by destruct (Hnone a Ha).
Qed.

End ExtractorFacts.

Section BuiltInTable.
Local Open Scope string_scope.
Local Open Scope list_scope.

Lemma entityTypes_global_nonempty :
  Forall (fun entry => global (regex entry.2) = true /\
                       1 <= min_len (source (regex entry.2)))
         entityTypes.
Proof. repeat constructor; vm_compute; lia. Qed.

Lemma person_needs_capital :
  Needs false (fun c => is_upper c = true) person_regex.
Proof.
  unfold person_regex. cbn [Pattern.seqs foldr].
  apply Needs_seq_r, Needs_seq_l, Needs_class. intros c.
  change (Pattern.range "A" "Z") with (CRange 65 90).
  unfold class_has, canonical_class.
  cbn [existsb atom_has andb xorb]. by rewrite !orb_false_r.
Qed.

Lemma email_needs_at : Needs false (fun c => c = 64%N) email_regex.
Proof.
  unfold email_regex. cbn [Pattern.seqs foldr].
  apply Needs_seq_r, Needs_seq_r, Needs_seq_l, Needs_char. intros c.
  change (ch "@") with 64%N. unfold class_has, canonical_class.
  cbn [existsb atom_has andb]. rewrite !orb_false_r. by intros ->%N.eqb_eq.
Qed.

Lemma time_needs_colon : Needs true (fun c => c = 58%N) time_regex.
Proof.
  unfold time_regex. cbn [Pattern.seqs foldr].
  apply Needs_seq_r, Needs_seq_r, Needs_seq_l, Needs_char. intros c.
  change (ch ":") with 58%N. unfold class_has, canonical_class.
  cbn [andb].
  destruct (in_range 97 122 c) eqn:H1; [|destruct (in_range 65 90 c) eqn:H2];
    cbn [existsb atom_has]; rewrite ?orb_false_r, ?orb_true_iff, ?N.eqb_eq;
    rewrite ?in_range_true, ?in_range_false in *; lia.
Qed.

End BuiltInTable.

(** X8: the start offset of an entity is the first place where its value
    occurs in the text: the value does not occur at any smaller offset. *)
Theorem extractentities_start_is_first_occurrence table (text : jsstring)
    (e : Entity) (j : nat) :
  e ∈ (extractentities_in table text).1 ->
  (Z.of_nat j < start e)%Z ->
  substring text j (j + length (value e)) <> value e.
Proof.
  intros (entry & span & _ & _ & ->)%entity_origin. cbn [start value entity_of].
  generalize (substring text span.1 span.2). intros m.
  unfold indexOf. intros Hlt Heq.
  apply (indexOf_from_least text _ 0 j) in Hlt.
  unfold substring in Heq.
  replace (j + length m - j) with (length m) in Heq by lia.
  apply starts_with_spec in Heq. congruence.
Qed.

Lemma extractentities_start_is_first_occurrence_witness :
  substring (js "My email is john@example.com") 3 (3 + 16) <> js "john@example.com".
Proof.
  apply (extractentities_start_is_first_occurrence entityTypes
           (js "My email is john@example.com")
           {| type := "email"; value := js "john@example.com";
              start := 12; end_ := 28 |} 3).
  - vm_compute. constructor.
  - vm_compute. reflexivity.
Defined.

(** X9: with the built-in table, whatever calls came before, no entity is
    empty: its value has at least one character and its end offset lies
    beyond its start offset. *)
Theorem extractentities_values_nonempty (history : list jsstring)
    (text : jsstring) (e : Entity) :
  e ∈ (extractentities_in (state_after history) text).1 ->
  value e <> [] /\ (start e < end_ e)%Z.
Proof.
  rewrite state_after_entityTypes.
  intros (entry & span & Hentry & Hspan & ->)%entity_origin.
  destruct (proj1 (Forall_forall _ _) entityTypes_global_nonempty entry Hentry)
    as [Hg Hmin].
  destruct (match_results_global text (regex entry.2) Hg) as [Hspans _].
  apply spans_from_matches in Hspans.
  destruct (proj1 (Forall_forall _ _) Hspans span Hspan) as [Hm Hp].
  destruct span as [p q]. cbn [fst snd] in *.
  apply compile_min_len in Hm as (y & Hy & Heq); [|done].
  injection Heq as ->.
  assert (Hlen : length (substring text p q) = q - p).
  { unfold substring. rewrite length_take, length_drop. lia. }
  cbn [value start end_ entity_of]. split; [|lia].
  intros Hnil. rewrite Hnil in Hlen. cbn in Hlen. lia.
Qed.

Lemma extractentities_values_nonempty_witness :
  js "5" <> [] /\ (0 < 1)%Z.
Proof.
  apply (extractentities_values_nonempty [js "a1 1"] (js "5 5")
           {| type := "number"; value := js "5"; start := 0; end_ := 1 |}).
  vm_compute. constructor.
Defined.

(** X10: the extractor returns, type by type in the order of the table,
    one entity for each of the successive leftmost matches of the type's
    pattern (each found from the end of the one before); the value of the
    entity is the matched substring. *)
Theorem extractentities_one_entity_per_match (text : jsstring) :
  exists spans : list (list (nat * nat)),
    Forall2 (fun entry found => spans_from text (regex entry.2) 0 found)
            entityTypes spans /\
    extractentities text =
      mjoin (zip_with
               (fun entry found =>
                  (fun span => entity_of entry.1 text (substring text span.1 span.2))
                    <$> found)
               entityTypes spans).
Proof.
  exists ((fun entry => (match_results (regex entry.2) text).1) <$> entityTypes).
  split.
  - apply Forall2_fmap_r, Forall_Forall2_diag.
    eapply Forall_impl; [exact entityTypes_global_nonempty|].
    intros entry [Hg _]. by apply match_results_global.
  - unfold extractentities. rewrite extractentities_in_per_match.
    unfold entityTypes, push_matches, entity_of.
    cbn [mbind list_bind fmap list_fmap zip_with mjoin list_join fst snd app].
    by rewrite <- !list_fmap_compose, !app_nil_r.
Qed.

(** X11: whatever the case mapping of the runtime, extraction from a
    normalized text never yields a time or an email entity: the
    normalizer removes the colon and the "@" that these patterns need.
    It yields no person entity either whenever the lower-cased text holds
    no ASCII capital letter. *)
Theorem extractentities_after_preprocessText (lower : jsstring -> jsstring)
    (x : jsstring) (e : Entity) :
  e ∈ extractentities (preprocessText_with lower x) ->
  (type e = "person"%string \/ type e = "date"%string \/
   type e = "phone"%string \/ type e = "number"%string) /\
  (Forall (fun c => is_upper c = false) (lower x) -> type e <> "person"%string).
Proof.
  intros (entry & span & Hentry & Hspan & ->)%entity_origin.
  cbn [type entity_of].
  assert (Hnone : forall P ic r,
            Needs ic P r ->
            (forall a, a ∈ preprocessText_with lower x -> ~ P a) ->
            span ∈ (match_results (literal r true ic) (preprocessText_with lower x)).1 ->
            False).
  { intros P ic r Hneeds Hno Hin.
    rewrite (no_match_without P _ (literal r true ic) eq_refl Hneeds Hno) in Hin.
    by apply elem_of_nil in Hin. }
  unfold entityTypes in Hentry.
  repeat (apply elem_of_cons in Hentry as [->|Hentry]); cbn [fst snd regex] in *;
    [ | | | | | | by apply elem_of_nil in Hentry ].
  - split; [tauto|]. intros Hlower _.
    apply (Hnone _ _ _ person_needs_capital); [|done].
    intros a Ha%preprocessText_with_chars. destruct Ha as (_ & _ & [->|Ha]); [done|].
    rewrite (proj1 (Forall_forall _ _) Hlower a Ha). done.
  - split; [tauto|done].
  - exfalso. apply (Hnone _ _ _ time_needs_colon); [|done].
    intros a Ha%preprocessText_with_chars ->. by destruct Ha as (Ha & _).
  - exfalso. apply (Hnone _ _ _ email_needs_at); [|done].
    intros a Ha%preprocessText_with_chars ->. by destruct Ha as (Ha & _).
  - split; [tauto|done].
  - split; [tauto|done].
Qed.

Lemma extractentities_after_preprocessText_witness :
  ("date"%string = "person"%string \/ "date"%string = "date"%string \/
   "date"%string = "phone"%string \/ "date"%string = "number"%string) /\
  "date"%string <> "person"%string.
Proof.
  destruct (extractentities_after_preprocessText toLowerCase
              (js "Due 2023-12-25 at 2:30 PM")
              {| type := "date"; value := js "2023-12-25"; start := 4; end_ := 14 |})
    as [Htype Hperson]; [vm_compute; constructor|].
  split; [exact Htype|]. apply Hperson. vm_compute. repeat constructor.
Defined.

(** X12: a call leaves the shared pattern objects as it found them at
    module load: after any sequence of calls every [lastIndex] is 0 and
    the table is the initial one. *)
Theorem extractentities_restores_state (history : list jsstring) :
  state_after history = entityTypes /\
  Forall (fun entry => lastIndex (regex entry.2) = 0) (state_after history).
Proof.
  rewrite state_after_entityTypes. split; [done|]. repeat constructor.
Qed.

(** ** More on classifier initialization *)

(** X13: initialization throws only when the identifier [path] is not
    bound or when training fails; a training file that cannot be loaded
    and a model that cannot be saved never make it throw.  A manager that
    is returned has been trained. *)
Theorem InitializeNlpManager_outcome (w : World) :
  (forall m, (InitializeNlpManager w).1 = Returned m ->
     trained m = true /\ is_Some (path w) /\ train_error w = None) /\
  (forall msg, (InitializeNlpManager w).1 = Thrown msg ->
     (path w = None /\ msg = "path is not defined"%string) \/
     (is_Some (path w) /\ train_error w = Some msg)).
Proof.
  unfold InitializeNlpManager.
  destruct (path w) as [resolve|]; [|split; [done|intros msg [= <-]; by left]].
  destruct (match intents_json w, utterances_json w with
            | Some intents, Some utterances => _
            | _, _ => _
            end) as [manager log].
  destruct (train_error w) as [err|], (save_error w) as [serr|]; cbn;
    (split; [intros m [= <-] || intros m [=] | intros msg [= <-] || intros msg [=]]);
    eauto.
Qed.

Lemma InitializeNlpManager_outcome_witness :
  (InitializeNlpManager missing_corpus_world).1 = Thrown "path is not defined" /\
  ((path missing_corpus_world = None /\
    "path is not defined"%string = "path is not defined"%string) \/
   (is_Some (path missing_corpus_world) /\
    train_error missing_corpus_world = Some "path is not defined"%string)).
Proof.
  split; [reflexivity|].
  apply (proj2 (InitializeNlpManager_outcome missing_corpus_world)).
  reflexivity.
Defined.

(** ** The Redis retry policy, continued *)

(** X16: the retry delay never decreases from one attempt to the next,
    and from the first attempt on it is at least 100 ms. *)
Theorem retryStrategy_monotone (n m : Z) :
  (n <= m)%Z ->
  ((retryStrategy n).1 <= (retryStrategy m).1)%Z /\
  (1 <= n -> 100 <= (retryStrategy n).1)%Z.
Proof. intros Hnm. cbn. lia. Qed.

Lemma retryStrategy_monotone_witness :
  ((retryStrategy 3).1 <= (retryStrategy 40).1)%Z /\ (100 <= (retryStrategy 3).1)%Z.
Proof.
  destruct (retryStrategy_monotone 3 40) as [H1 H2]; [lia|].
  split; [exact H1|apply H2; lia].
Defined.

(** ** Pagination *)

(** X17: for a positive limit the pages tile the rows: the row with index
    [i >= 0] lies in the window [skip .. skip + take - 1] of exactly one
    page, page [i / limit + 1].  Nothing is checked: a page number below 1
    gives a negative [skip]. *)
Theorem paginate_partition (page limit i : Z) :
  (0 < limit)%Z -> (0 <= i)%Z ->
  ((Database.skip (Database.paginate (Some page) (Some limit)) <= i <
    Database.skip (Database.paginate (Some page) (Some limit)) +
    Database.take (Database.paginate (Some page) (Some limit)))%Z
   <-> page = (i / limit + 1)%Z) /\
  ((Database.skip (Database.paginate (Some page) (Some limit)) < 0)%Z
   <-> (page < 1)%Z).
Proof.
  intros Hlimit Hi. cbn. split.
  - pose proof (Z.div_mod i limit ltac:(lia)) as Hdiv.
    pose proof (Z.mod_pos_bound i limit Hlimit) as Hmod.
    split; [intros [H1 H2]|intros ->; nia].
    assert (page - 1 = i / limit)%Z; [|lia].
    apply (Z.div_unique i limit (page - 1) (i - (page - 1) * limit)); lia.
  - nia.
Qed.

Lemma paginate_partition_witness :
  (Database.skip (Database.paginate (Some 3) None) <= 25 <
   Database.skip (Database.paginate (Some 3) None) +
   Database.take (Database.paginate (Some 3) None))%Z.
Proof.
  apply (proj1 (paginate_partition 3 10 25 ltac:(lia) ltac:(lia))).
  reflexivity.
Defined.

(** ** The environment configuration *)

Section SplitFacts.
Variable separator : N.

Lemma split_nonempty (s : jsstring) : EnvConfig.split separator s <> [].
Proof.
  destruct s as [|c s]; cbn; [done|].
  destruct (c =? separator)%N; [done|].
  by destruct (EnvConfig.split separator s).
Qed.

Lemma join_cons (p q : jsstring) r :
  EnvConfig.join separator (p :: q :: r) =
  p ++ separator :: EnvConfig.join separator (q :: r).
Proof. done. Qed.

Lemma join_split (s : jsstring) :
  EnvConfig.join separator (EnvConfig.split separator s) = s.
Proof.
  induction s as [|c s IH]; cbn [EnvConfig.split]; [done|].
  pose proof (split_nonempty s) as Hne.
  destruct (c =? separator)%N eqn:Hc.
  - apply N.eqb_eq in Hc as ->.
    destruct (EnvConfig.split separator s) as [|piece pieces]; [done|].
    by rewrite join_cons, IH.
  - destruct (EnvConfig.split separator s) as [|piece pieces]; [done|].
    destruct pieces as [|q r]; [cbn in *; congruence|].
    rewrite join_cons in *. cbn [app]. congruence.
Qed.

Lemma split_pieces (s : jsstring) :
  Forall (fun piece => separator ∉ piece) (EnvConfig.split separator s).
Proof.
  induction s as [|c s IH]; cbn [EnvConfig.split].
  - repeat constructor. by intros ?%elem_of_nil.
  - destruct (c =? separator)%N eqn:Hc.
    + constructor; [by intros ?%elem_of_nil|done].
    + apply N.eqb_neq in Hc.
      destruct (EnvConfig.split separator s) as [|piece pieces].
      * repeat constructor. intros [->|?%elem_of_nil]%elem_of_cons; done.
      * apply Forall_cons in IH as [Hp Hps]. constructor; [|done].
        intros [->|?]%elem_of_cons; done.
Qed.

End SplitFacts.

(** X18: outside the test environment the allowed CORS methods are the
    comma-separated pieces of [CORS_METHODS]: joined with commas they give
    the variable back, no piece holds a comma, and there is at least one
    piece (the empty string gives one empty piece). *)
Theorem cors_methods_split (env : EnvConfig.Env) :
  EnvConfig.NODE_ENV env <> EnvConfig.test ->
  EnvConfig.join (ch ",") (EnvConfig.methods (EnvConfig.cors (EnvConfig.config env)))
    = EnvConfig.CORS_METHODS env /\
  Forall (fun method => ch "," ∉ method)
    (EnvConfig.methods (EnvConfig.cors (EnvConfig.config env))) /\
  EnvConfig.methods (EnvConfig.cors (EnvConfig.config env)) <> [].
Proof.
  intros Henv. unfold EnvConfig.config.
  destruct (EnvConfig.NODE_ENV env); [| |done]; cbn;
    (split; [apply join_split|split; [apply split_pieces|apply split_nonempty]]).
Qed.

(** X19: in production the wildcard is never passed on as the CORS
    origin: when [CORS_ORIGIN] is "*" the origin is [false], otherwise it
    is the list of the comma-separated pieces of [CORS_ORIGIN]. *)
Theorem cors_origin_production (env : EnvConfig.Env) :
  EnvConfig.NODE_ENV env = EnvConfig.production ->
  match EnvConfig.origin (EnvConfig.cors (EnvConfig.config env)) with
  | EnvConfig.OriginFalse => EnvConfig.CORS_ORIGIN env = js "*"
  | EnvConfig.OriginList l =>
      EnvConfig.CORS_ORIGIN env <> js "*" /\
      EnvConfig.join (ch ",") l = EnvConfig.CORS_ORIGIN env /\
      Forall (fun piece => ch "," ∉ piece) l
  | EnvConfig.OriginString _ => False
  end.
Proof.
  intros Henv. unfold EnvConfig.config. rewrite Henv. cbn.
  case_bool_decide as Hstar; [done|].
  split; [done|]. split; [apply join_split|apply split_pieces].
Qed.

Lemma cors_methods_split_witness :
  EnvConfig.join (ch ",")
    (EnvConfig.methods (EnvConfig.cors (EnvConfig.config ConfigExamples.production_env)))
  = js "GET,HEAD,PUT,PATCH,POST,DELETE".
Proof.
  apply (cors_methods_split ConfigExamples.production_env). discriminate.
Defined.

Lemma cors_origin_production_witness :
  match EnvConfig.origin
          (EnvConfig.cors (EnvConfig.config ConfigExamples.production_env)) with
  | EnvConfig.OriginFalse =>
      EnvConfig.CORS_ORIGIN ConfigExamples.production_env = js "*"
  | EnvConfig.OriginList l =>
      EnvConfig.CORS_ORIGIN ConfigExamples.production_env <> js "*" /\
      EnvConfig.join (ch ",") l = EnvConfig.CORS_ORIGIN ConfigExamples.production_env /\
      Forall (fun piece => ch "," ∉ piece) l
  | EnvConfig.OriginString _ => False
  end.
Proof.
  apply (cors_origin_production ConfigExamples.production_env). reflexivity.
Defined.

(** ** The Prisma client *)

(** X20: every event that the Prisma client is told to emit has a
    listener, and query events are emitted, and listened for, exactly in
    development; in the other environments the client emits errors and
    warnings only. *)
Theorem prisma_events_have_listeners (env : EnvConfig.Env) (st : Database.State) :
  Database.prisma st = None ->
  (forall emitted,
     emitted ∈ Database.log (Database.createPrismaClient env st).1 ->
     emitted.1 = "event"%string /\
     emitted.2 ∈ Database.listeners (Database.createPrismaClient env st).1) /\
  (("event", "query")%string ∈ Database.log (Database.createPrismaClient env st).1
   <-> EnvConfig.NODE_ENV env = EnvConfig.development) /\
  ("query"%string ∈ Database.listeners (Database.createPrismaClient env st).1
   <-> EnvConfig.NODE_ENV env = EnvConfig.development) /\
  (EnvConfig.NODE_ENV env <> EnvConfig.development ->
   Database.log (Database.createPrismaClient env st).1 =
     [("event", "error"); ("event", "warn")]%string).
Proof.
  intros Hnone. unfold Database.createPrismaClient. rewrite Hnone.
  unfold Database.prismaLogLevels, EnvConfig.isDevelopment, EnvConfig.config.
  destruct (EnvConfig.NODE_ENV env); cbn.
  all: repeat split; try done.
  all: try match goal with
       | H : _ ∈ _ |- _ =>
           repeat (apply elem_of_cons in H as [->|H]);
           [..|by apply elem_of_nil in H]; cbn; rewrite ?elem_of_cons; tauto
       end.
  all: try (intros Hin; repeat (apply elem_of_cons in Hin as [Heq|Hin]);
            [..|by apply elem_of_nil in Hin]; discriminate).
  all: try (intros _; rewrite !elem_of_cons; tauto).
Qed.

Lemma prisma_events_have_listeners_witness :
  Database.log
    (Database.createPrismaClient ConfigExamples.production_env Database.initial).1 =
  [("event", "error"); ("event", "warn")]%string.
Proof.
  apply (prisma_events_have_listeners ConfigExamples.production_env Database.initial
           eq_refl).
  discriminate.
Defined.

(** X21: the client is created once.  Whatever the state before, every
    call after the first returns the client of the first call and changes
    nothing, so the handlers on [process] are registered once; starting
    from the state at module load there are exactly five of them. *)
Theorem createPrismaClient_once (env : EnvConfig.Env) (st : Database.State) (n : nat) :
  Database.after_calls env (Datatypes.S n) st = (Database.createPrismaClient env st).2 /\
  (Database.createPrismaClient env (Database.after_calls env (Datatypes.S n) st)).1 =
    (Database.createPrismaClient env st).1 /\
  Database.process_handlers
    (Database.after_calls env (Datatypes.S n) Database.initial) =
    ["SIGINT"; "SIGTERM"; "beforeExit"; "unhandledRejection";
     "uncaughtException"]%string.
Proof.
  assert (Hset : forall st', is_Some (Database.prisma (Database.createPrismaClient env st').2)).
  { intros st'. unfold Database.createPrismaClient.
    destruct (Database.prisma st') eqn:E; cbn; [by rewrite E|done]. }
  assert (Hfix : forall st', is_Some (Database.prisma st') ->
                             Database.createPrismaClient env st' =
                             (default (Database.createPrismaClient env st').1
                                      (Database.prisma st'), st')).
  { intros st' [c Hc]. unfold Database.createPrismaClient. by rewrite Hc. }
  assert (Hcalls : forall k st', is_Some (Database.prisma st') ->
                                 Database.after_calls env k st' = st').
  { induction k as [|k IH]; intros st' Hst; cbn; [done|].
    rewrite (Hfix st' Hst). cbn. by apply IH. }
  assert (Hfirst : forall st', Database.after_calls env (Datatypes.S n) st' =
                               (Database.createPrismaClient env st').2).
  { intros st'. cbn. apply Hcalls, Hset. }
  split; [apply Hfirst|]. split; [|by rewrite Hfirst].
  rewrite Hfirst. unfold Database.createPrismaClient.
  destruct (Database.prisma st) eqn:E; cbn; by rewrite ?E.
Qed.

(** ** The logger's own methods *)

(** X22: the chat log never holds more than the first 100 code units of
    a message: what is logged is a prefix of the message, at most 100 long,
    and the whole message when that is not longer. *)
Theorem logChatInteraction_truncates (now : jsstring) sessionId (message : jsstring)
    response processingTime :
  exists logged,
    Logger.meta (Logger.logChatInteraction now sessionId (Some message) response
                   processingTime) !! "message"%string
      = Some (Logger.VString logged) /\
    length logged <= 100 /\
    logged `prefix_of` message /\
    (length message <= 100 -> logged = message).
Proof.
  exists (substring message 0 100). cbn.
  split; [by simplify_map_eq|]. unfold substring. rewrite drop_0.
  change (100 - 0) with 100.
  split; [rewrite length_take; lia|]. split; [apply prefix_take|].
  intros Hlen. by apply take_ge.
Qed.

(** X23: in an authentication or security entry the caller's data can
    replace the [type] tag and the [event], and its other properties are
    passed on, but the [timestamp] is always the one of the call. *)
Theorem log_event_metadata (now : jsstring) event (data : gmap string Logger.Value) :
  let auth := Logger.meta (Logger.logAuth now event (Some data)) in
  let security := Logger.meta (Logger.logSecurity now event (Some data)) in
  auth !! "timestamp"%string = Some (Logger.VString now) /\
  security !! "timestamp"%string = Some (Logger.VString now) /\
  auth !! "type"%string =
    Some (default (Logger.VString (js "AUTH")) (data !! "type"%string)) /\
  security !! "type"%string =
    Some (default (Logger.VString (js "SECURITY")) (data !! "type"%string)) /\
  auth !! "event"%string = Some (default event (data !! "event"%string)) /\
  security !! "event"%string = Some (default event (data !! "event"%string)) /\
  (forall key, key <> "timestamp"%string -> key <> "type"%string ->
               key <> "event"%string ->
               auth !! key = data !! key /\ security !! key = data !! key).
Proof.
  cbn. repeat split.
  1,2: by rewrite lookup_insert_eq.
  1-4: rewrite lookup_insert_ne, lookup_union by done;
       try (destruct (data !! "type"%string); by simplify_map_eq);
       destruct (data !! "event"%string); by simplify_map_eq.
  all: rewrite lookup_insert_ne, lookup_union by done;
       destruct (data !! key); by simplify_map_eq.
Qed.

(** X24: an error entry carries the message of an [Error] object, or the
    raised value itself when it is not one (then with a null stack); the
    context can replace [type], [message] and [stack], and the time of the
    call is written under [timestamps], so a [timestamp] of the context is
    passed on as it is. *)
Theorem logError_metadata (now : jsstring) (error : Logger.Raised)
    (context : gmap string Logger.Value) :
  let entry := Logger.meta (Logger.logError now error (Some context)) in
  entry !! "timestamps"%string = Some (Logger.VString now) /\
  entry !! "timestamp"%string = context !! "timestamp"%string /\
  entry !! "message"%string =
    Some (default (match error with
                   | Logger.ErrorObject m _ => Logger.VString m
                   | Logger.OtherValue v => v
                   end) (context !! "message"%string)) /\
  entry !! "stack"%string =
    Some (default (match error with
                   | Logger.ErrorObject _ s => s
                   | Logger.OtherValue _ => Logger.VNull
                   end) (context !! "stack"%string)) /\
  entry !! "type"%string =
    Some (default (Logger.VString (js "ERROR")) (context !! "type"%string)).
Proof.
  cbn. repeat split.
  - by rewrite lookup_insert_eq.
  - rewrite lookup_insert_ne, lookup_union by done.
    destruct (context !! "timestamp"%string); by simplify_map_eq.
  - rewrite lookup_insert_ne, lookup_union by done.
    destruct (context !! "message"%string); by simplify_map_eq.
  - rewrite lookup_insert_ne, lookup_union by done.
    destruct (context !! "stack"%string); by simplify_map_eq.
  - rewrite lookup_insert_ne, lookup_union by done.
    destruct (context !! "type"%string); by simplify_map_eq.
Qed.

(** ** What the normalizer keeps *)

Section Kept.

Lemma filter_collapse b (l : jsstring) :
  List.filter (fun c => negb (is_space c)) (collapse_from b l) =
  List.filter (fun c => negb (is_space c)) l.
Proof.
  revert b. induction l as [|c l IH]; intros b; cbn; [done|].
  destruct (is_space c) eqn:Hc; [destruct b|]; cbn; rewrite ?Hc; cbn;
    by rewrite IH.
Qed.

Lemma filter_spaces (v : jsstring) :
  Forall (fun c => is_space c = true) v ->
  List.filter (fun c => negb (is_space c)) v = [].
Proof. induction 1 as [|c v Hc _ IH]; cbn; [done|]. by rewrite Hc. Qed.

Lemma filter_trim (l : jsstring) :
  List.filter (fun c => negb (is_space c)) (trim l) =
  List.filter (fun c => negb (is_space c)) l.
Proof.
  unfold trim.
  destruct (trimEnd_prefix (trimStart l)) as (v & Hv & Hvs).
  destruct (trimStart_suffix l) as (w & Hw & Hws).
  rewrite Hw at 2. rewrite Hv at 2.
  rewrite !List.filter_app, (filter_spaces v), (filter_spaces w) by done.
  by rewrite app_nil_r.
Qed.

Lemma filter_twice (f g : N -> bool) (l : jsstring) :
  List.filter f (List.filter g l) = List.filter (fun c => g c && f c) l.
Proof.
  induction l as [|c l IH]; cbn; [done|].
  destruct (g c); cbn; [destruct (f c)|]; by rewrite IH.
Qed.

Lemma filter_both (f g : N -> bool) (l : jsstring) :
  List.filter (fun c => g c && f c) l = List.filter g (List.filter f l).
Proof.
  induction l as [|c l IH]; cbn; [done|].
  destruct (f c); cbn; [destruct (g c)|rewrite andb_false_r]; by rewrite IH.
Qed.

End Kept.

(** X25: the normalizer loses no allow-listed character and invents
    none: the characters of the output other than spaces are exactly the
    allow-listed characters other than white space of the lower-cased
    input, in the same order. *)
Theorem preprocessText_keeps_allowed (x : jsstring) :
  List.filter (fun c => negb (is_space c)) (preprocessText x) =
  List.filter (fun c => allow_listed c && negb (is_space c)) (toLowerCase x).
Proof.
  rewrite preprocessText_steps, filter_twice, !filter_both.
  unfold collapse_whitespace. by rewrite filter_trim, filter_collapse.
Qed.
